(** * elog-gen: the error-model resolution engine of tools/elog-gen.py

    A shallow embedding of the functions of [tools/elog-gen.py] that
    load error and metadata records, validate single inheritance, order
    errors parents-first and resolve metadata field types, together
    with the properties the specification states about them.

    Python values are modelled as follows: [str] is [string]; a list is
    a [list]; a [dict] is a [gmap] whose subscript on an absent key
    raises [KeyError]; [None] in a dictionary value is [option]'s
    [None]; a run of a function either returns, raises, or (for the one
    [while] loop) exhausts the fuel it was given. *)

From Stdlib Require Import Ascii String.
From stdpp Require Import gmap strings list fin_maps relations.

Open Scope string_scope.
Open Scope list_scope.
Open Scope nat_scope.

(** ** Python runtime: results, truthiness, string methods *)

Module Py.

Inductive exn : Type :=
| KeyError (key : string)
| IndexError
| NameError (name : string)
| SystemExit (code : nat).

(** The result of running a piece of code: a value, an uncaught
    exception, or no answer within the steps allowed. *)
Inductive res (A : Type) : Type :=
| Ret (a : A)
| Raise (e : exn)
| NoFuel.
Arguments Ret {A} a.
Arguments Raise {A} e.
Arguments NoFuel {A}.

Definition bind {A B : Type} (r : res A) (k : A → res B) : res B :=
  match r with
  | Ret a => k a
  | Raise e => Raise e
  | NoFuel => NoFuel
  end.

(** [d[k]] on a dictionary. *)
Definition subscript {V : Type} (d : gmap string V) (k : string) : res V :=
  match d !! k with
  | Some v => Ret v
  | None => Raise (KeyError k)
  end.

(** [x in l] on a list of strings. *)
Definition contains (l : list string) (x : string) : bool :=
  bool_decide (x ∈ l).

(** Truth value of a dictionary value that is [None] or a [str]:
    [None] and the empty string are false. *)
Definition truthy (v : option string) : bool :=
  match v with
  | None => false
  | Some s => negb (String.eqb s "")
  end.

(** [v in l] where [v] may be [None]; the list holds strings only. *)
Definition contains_val (l : list string) (v : option string) : bool :=
  match v with
  | None => false
  | Some s => contains l s
  end.

(** [str.replace(old, new)]: every non-overlapping occurrence of
    [old], leftmost first.  [skip] counts the characters of a matched
    occurrence that are still to be dropped. *)
Fixpoint replace_from (old new : string) (skip : nat) (s : string) : string :=
  match s with
  | "" => ""
  | String c s' =>
      match skip with
      | S k => replace_from old new k s'
      | O =>
          if String.prefix old s
          then new +:+ replace_from old new (String.length old - 1) s'
          else String c (replace_from old new 0 s')
      end
  end.

(** With an empty [old], Python puts [new] before every character
    and at the end. *)
Fixpoint interleave (new s : string) : string :=
  match s with
  | "" => new
  | String c s' => new +:+ String c (interleave new s')
  end.

Definition replace (old new s : string) : string :=
  match old with
  | "" => interleave new s
  | _ => replace_from old new 0 s
  end.

(** [str.split(sep)] for a one-character separator: the first piece
    and the remaining pieces (the result is never empty). *)
Fixpoint split (sep : ascii) (s : string) : string * list string :=
  match s with
  | "" => ("", [])
  | String c s' =>
      let '(h, t) := split sep s' in
      if Ascii.eqb c sep then ("", h :: t) else (String c h, t)
  end.

(** [str.strip()]: leading and trailing white space (the ASCII
    white-space characters) removed. *)
Definition is_space (c : ascii) : bool :=
  let n := nat_of_ascii c in
  (Nat.leb 9 n && Nat.leb n 13) || Nat.eqb n 32
  || (Nat.leb 28 n && Nat.leb n 31).

Fixpoint lstrip (s : string) : string :=
  match s with
  | "" => ""
  | String c s' => if is_space c then lstrip s' else s
  end.

Fixpoint rstrip (s : string) : string :=
  match s with
  | "" => ""
  | String c s' =>
      match rstrip s' with
      | "" => if is_space c then "" else String c ""
      | r => String c r
      end
  end.

Definition strip (s : string) : string := rstrip (lstrip s).

(** [s1 in s2] for strings. *)
Definition occurs (old s : string) : Prop :=
  ∃ pre post, s = pre +:+ old +:+ post.

End Py.
Import Py.

(** ** order_inherited_errors, check_error_inheritance (lines 21-56) *)

(** The [for] loop of lines 25-28: is some parent not [None]? *)
Fixpoint has_inheritance (i_parents : gmap string (option string))
    (i_errors : list string) : res bool :=
  match i_errors with
  | [] => Ret false
  | error :: rest =>
      bind (subscript i_parents error) (λ p,
        match p with
        | Some _ => Ret true
        | None => has_inheritance i_parents rest
        end)
  end.

(** One run of the [for] loop of lines 35-42 over the errors still to
    visit, [errors] being the ordered list built so far. *)
Fixpoint scan (i_parents : gmap string (option string))
    (todo : list string) (errors : list string) : res (list string) :=
  match todo with
  | [] => Ret errors
  | error :: rest =>
      if contains errors error then scan i_parents rest errors
      else
        bind (subscript i_parents error) (λ p,
          if negb (truthy p) || contains_val errors p
          then scan i_parents rest (errors ++ [error])
          else scan i_parents rest errors)
  end.

(** The [while] loop of line 34; [fuel] bounds the number of passes. *)
Fixpoint order_loop (fuel : nat) (i_parents : gmap string (option string))
    (i_errors : list string) (errors : list string) : res (list string) :=
  if Nat.ltb (length errors) (length i_errors) then
    match fuel with
    | O => NoFuel
    | S fuel' =>
        bind (scan i_parents i_errors errors)
             (order_loop fuel' i_parents i_errors)
    end
  else Ret errors.

Definition order_inherited_errors (fuel : nat) (i_errors : list string)
    (i_parents : gmap string (option string)) : res (list string) :=
  bind (has_inheritance i_parents i_errors) (λ inh,
    if inh then order_loop fuel i_parents i_errors []
    else Ret i_errors).

(** The message printed at lines 53-54. *)
Definition dangling_message (error parent : string) : string :=
  error +:+ " inherits " +:+ parent +:+ " but the latter is not defined".

(** [check_error_inheritance]: the lines printed and the value
    returned.  [todo] is the part of [i_errors] the loop has not
    visited yet. *)
Fixpoint check_from (i_errors : list string)
    (i_parents : gmap string (option string))
    (todo : list string) : res (list string * bool) :=
  match todo with
  | [] => Ret ([], true)
  | error :: rest =>
      bind (subscript i_parents error) (λ p,
        match p with
        | Some parent =>
            if truthy p && negb (contains i_errors parent)
            then Ret ([dangling_message error parent], false)
            else check_from i_errors i_parents rest
        | None => check_from i_errors i_parents rest
        end)
  end.

Definition check_error_inheritance (i_errors : list string)
    (i_parents : gmap string (option string)) : res (list string * bool) :=
  check_from i_errors i_parents i_errors.

(** ** get_meta_yaml_file, get_cpp_type (lines 80-99) *)

Definition get_meta_yaml_file (i_error_yaml_file : string) : string :=
  replace "errors" "metadata" i_error_yaml_file.

Definition typeMap : gmap string string :=
  <["int16" := "int16_t"]> (
  <["int32" := "int32_t"]> (
  <["int64" := "int64_t"]> (
  <["uint16" := "uint16_t"]> (
  <["uint32" := "uint32_t"]> (
  <["uint64" := "uint64_t"]> (
  <["double" := "double"]> (
  <["string" := "const char*"]> ∅))))))).

Definition get_cpp_type (i_type : string) : res string :=
  subscript typeMap i_type.

(** ** The shared model and the program state *)

(** The seven objects of lines 117-123 that [get_elog_data] fills and
    the template receives. *)
Record elog_data : Type := ElogData {
  errors : list string;
  error_msg : gmap string string;
  error_lvl : gmap string string;
  meta : gmap string (list string);
  meta_data : gmap string (gmap string string);
  parents : gmap string (option string);
  metadata_process : gmap string string }.

Definition empty_data : elog_data :=
  ElogData [] ∅ ∅ ∅ ∅ ∅ ∅.

(** What a run can observe and change: the lines printed, the model
    being filled, and the files written (a path with the arguments
    handed to [template.render]). *)
Record world : Type := World {
  stdout : list string;
  model : elog_data;
  files : list (string * elog_data) }.

Definition initial_world : world := World [] empty_data [].

(** Records of the two kinds of YAML documents. *)
Record error_record : Type := ErrorRecord {
  er_name : option string;
  er_description : option string }.

Record meta_field : Type := MetaField {
  mf_str : string;
  mf_type : string;
  mf_process : option bool }.

Record meta_entry : Type := MetaEntry {
  me_name : string;
  me_level : option string;
  me_inherits : option (list string);
  me_meta : option (list meta_field) }.

(** The file system as the program reads it: [os.path.isfile] and the
    result of [yaml.safe_load(open(path))] for both kinds of document. *)
Record filesystem : Type := FileSystem {
  isfile : string → bool;
  load_errors : string → list error_record;
  load_meta : string → list meta_entry }.

(** State and exceptions threaded through the stateful functions. *)
Definition M (A : Type) : Type := world → res A * world.

Definition ret {A : Type} (a : A) : M A := λ w, (Ret a, w).

Definition raise {A : Type} (e : exn) : M A := λ w, (Raise e, w).

Definition mbind {A B : Type} (m : M A) (k : A → M B) : M B :=
  λ w, match m w with
       | (Ret a, w') => k a w'
       | (Raise e, w') => (Raise e, w')
       | (NoFuel, w') => (NoFuel, w')
       end.

Notation "'do' x <- m ; k" := (mbind m (λ x, k))
  (at level 10, x name, m at level 100, k at level 200,
   format "'[v' 'do'  x  <-  m ; '/' k ']'").
Notation "m ;; k" := (mbind m (λ _, k))
  (at level 100, k at level 200, right associativity).

Definition lift {A : Type} (r : res A) : M A := λ w, (r, w).

Definition print (line : string) : M unit :=
  λ w, (Ret tt, World (stdout w ++ [line]) (model w) (files w)).

Definition print_all (lines : list string) : M unit :=
  λ w, (Ret tt, World (stdout w ++ lines) (model w) (files w)).

Definition exit {A : Type} (code : nat) : M A := raise (SystemExit code).

Definition get_model : M elog_data := λ w, (Ret (model w), w).

Definition update (f : elog_data → elog_data) : M unit :=
  λ w, (Ret tt, World (stdout w) (f (model w)) (files w)).

Definition write_file (path : string) (content : elog_data) : M unit :=
  λ w, (Ret tt, World (stdout w) (model w) (files w ++ [(path, content)])).

Fixpoint for_each {A : Type} (l : list A) (body : A → M unit) : M unit :=
  match l with
  | [] => ret tt
  | x :: rest => body x ;; for_each rest body
  end.

(** Assignments to the parts of the model. *)
Definition append_error (name : string) (d : elog_data) : elog_data :=
  ElogData (errors d ++ [name]) (error_msg d) (error_lvl d) (meta d)
           (meta_data d) (parents d) (metadata_process d).

Definition set_error_msg (k v : string) (d : elog_data) : elog_data :=
  ElogData (errors d) (<[k := v]> (error_msg d)) (error_lvl d) (meta d)
           (meta_data d) (parents d) (metadata_process d).

Definition set_error_lvl (k v : string) (d : elog_data) : elog_data :=
  ElogData (errors d) (error_msg d) (<[k := v]> (error_lvl d)) (meta d)
           (meta_data d) (parents d) (metadata_process d).

Definition set_meta (k : string) (v : list string) (d : elog_data) : elog_data :=
  ElogData (errors d) (error_msg d) (error_lvl d) (<[k := v]> (meta d))
           (meta_data d) (parents d) (metadata_process d).

Definition set_meta_data (k : string) (v : gmap string string)
    (d : elog_data) : elog_data :=
  ElogData (errors d) (error_msg d) (error_lvl d) (meta d)
           (<[k := v]> (meta_data d)) (parents d) (metadata_process d).

(** [meta_data[k][field] = v], the entry [meta_data[k]] being there. *)
Definition set_meta_data_field (k field v : string)
    (d : elog_data) : elog_data :=
  ElogData (errors d) (error_msg d) (error_lvl d) (meta d)
           (alter (insert field v) k (meta_data d)) (parents d)
           (metadata_process d).

Definition set_parent (k : string) (v : option string)
    (d : elog_data) : elog_data :=
  ElogData (errors d) (error_msg d) (error_lvl d) (meta d)
           (meta_data d) (<[k := v]> (parents d)) (metadata_process d).

Definition set_metadata_process (k v : string) (d : elog_data) : elog_data :=
  ElogData (errors d) (error_msg d) (error_lvl d) (meta d)
           (meta_data d) (parents d) (<[k := v]> (metadata_process d)).

Definition with_errors (l : list string) (d : elog_data) : elog_data :=
  ElogData l (error_msg d) (error_lvl d) (meta d)
           (meta_data d) (parents d) (metadata_process d).

(** ** get_elog_data (lines 175-248) *)

Section Loader.

(** [str(error)] for a record of the error document. *)
Variable str_of_record : error_record → string.

Definition missing_name_message (error : error_record)
    (i_elog_yaml : string) : string :=
  "Error - Did not find name in entry " +:+ str_of_record error
  +:+ " in file " +:+ i_elog_yaml +:+ " ".

Definition no_match_message (name i_elog_meta_yaml : string) : string :=
  "Error - Did not find error named " +:+ name +:+ " in " +:+ i_elog_meta_yaml.

(** [i_namespace.replace('/', '.') + ('.') + error['name']]. *)
Definition full_name (i_namespace name : string) : string :=
  replace "/" "." i_namespace +:+ "." +:+ name.

(** [i['str'].split('=')[0]]. *)
Definition short_name (str : string) : string := (split "=" str).1.

(** The loop of lines 218-221. *)
Fixpoint find_match (name : string) (mfile : list meta_entry)
    : option meta_entry :=
  match mfile with
  | [] => None
  | meta_entry :: rest =>
      if String.eqb (me_name meta_entry) name then Some meta_entry
      else find_match name rest
  end.

(** The body of the loop of lines 239-247 for one metadata field;
    returns the short identifier appended to [tmp_meta]. *)
Definition load_meta_field (fullname : string) (i : meta_field) : M string :=
  let str_short := short_name (mf_str i) in
  update (set_meta_data str_short ∅) ;;
  update (set_meta_data_field str_short "str" (mf_str i)) ;;
  update (set_meta_data_field str_short "str_short" str_short) ;;
  do cpp_type <- lift (get_cpp_type (mf_type i)) ;
  update (set_meta_data_field str_short "type" cpp_type) ;;
  (match mf_process i with
   | Some true =>
       update (set_metadata_process str_short (fullname +:+ "." +:+ str_short))
   | _ => ret tt
   end) ;;
  ret str_short.

(** The loop of lines 239-247, [tmp_meta] being the list so far. *)
Fixpoint load_meta_fields (fullname : string) (fields : list meta_field)
    (tmp_meta : list string) : M (list string) :=
  match fields with
  | [] => ret tmp_meta
  | i :: rest =>
      do str_short <- load_meta_field fullname i ;
      load_meta_fields fullname rest (tmp_meta ++ [str_short])
  end.

(** Lines 228-248: the metadata entry [match] was found. *)
Definition load_match (fullname : string) (match_ : meta_entry) : M unit :=
  update (set_error_lvl fullname (default "ERR" (me_level match_))) ;;
  (match me_inherits match_ with
   | None => ret tt
   | Some [] => raise IndexError
   | Some (parent :: _) => update (set_parent fullname (Some parent))
   end) ;;
  do tmp_meta <- (match me_meta match_ with
                  | None => ret []
                  | Some fields => load_meta_fields fullname fields []
                  end) ;
  update (set_meta fullname tmp_meta).

(** Lines 211-248: the metadata of the error [name], if there is a
    metadata document and it has an entry of that name. *)
Definition load_metadata (fs : filesystem) (i_elog_meta_yaml : string)
    (name fullname : string) : M unit :=
  if negb (isfile fs i_elog_meta_yaml) then ret tt
  else
    match find_match name (load_meta fs i_elog_meta_yaml) with
    | None => print (no_match_message name i_elog_meta_yaml)
    | Some match_ => load_match fullname match_
    end.

(** The body of the loop of line 196 for one error record. *)
Definition load_error (fs : filesystem)
    (i_elog_yaml i_elog_meta_yaml i_namespace : string)
    (error : error_record) : M unit :=
  match er_name error with
  | None =>
      print (missing_name_message error i_elog_yaml) ;;
      exit 1
  | Some name =>
      let fullname := full_name i_namespace name in
      update (append_error fullname) ;;
      (match er_description error with
       | Some description => update (set_error_msg fullname (strip description))
       | None => ret tt
       end) ;;
      update (set_error_lvl fullname "ERR") ;;
      update (set_parent fullname None) ;;
      load_metadata fs i_elog_meta_yaml name fullname
  end.

Definition get_elog_data (fs : filesystem)
    (i_elog_yaml i_elog_meta_yaml i_namespace : string) : M unit :=
  for_each (load_errors fs i_elog_yaml)
           (load_error fs i_elog_yaml i_elog_meta_yaml i_namespace).

(** ** gen_elog_hpp (lines 102-173)

    [error_yamls] is the dictionary [get_error_yaml_files] returns,
    in its iteration order: document path and namespace. *)

Definition template_path_of (i_template_dir i_elog_mako : string) : string :=
  i_template_dir +:+ "/" +:+ i_elog_mako.

(** The body of the loop of line 127. *)
Definition load_error_yaml (fs : filesystem)
    (i_template_dir i_elog_mako : string)
    (entry : string * string) : M unit :=
  let error_yaml := entry.1 in
  if negb (isfile fs error_yaml) then
    print ("Cannot find input yaml file " +:+ error_yaml) ;; exit 1
  else
    let meta_yaml := get_meta_yaml_file error_yaml in
    let template_path := template_path_of i_template_dir i_elog_mako in
    if negb (isfile fs template_path) then
      print ("Cannot find input template file " +:+ template_path) ;; exit 1
    else get_elog_data fs error_yaml meta_yaml entry.2.

(** Lines 154-173: validation, ordering and the write. *)
Definition validate_order_render (fuel : nat)
    (error_yamls : list (string * string))
    (i_output_hpp : string) : M unit :=
  do d <- get_model ;
  do checked <- lift (check_error_inheritance (errors d) (parents d)) ;
  print_all checked.1 ;;
  if negb checked.2 then
    print "Error - failed to validate error inheritance" ;; exit 1
  else
    do ordered <- lift (order_inherited_errors fuel (errors d) (parents d)) ;
    match error_yamls with
    | [] => raise (NameError "template_path")
    | _ :: _ => write_file i_output_hpp (with_errors ordered d)
    end.

Definition gen_elog_hpp (fuel : nat) (fs : filesystem)
    (error_yamls : list (string * string))
    (i_output_hpp i_template_dir i_elog_mako : string) : M unit :=
  for_each error_yamls (load_error_yaml fs i_template_dir i_elog_mako) ;;
  validate_order_render fuel error_yamls i_output_hpp.

End Loader.

(** ** Properties of a batch (an error list with its parent map) *)

(** [e] is an error of the batch whose parent, as the code reads it, is
    [p]: the entry is neither [None] nor the empty string. *)
Definition inherits (i_errors : list string)
    (i_parents : gmap string (option string)) (e p : string) : Prop :=
  e ∈ i_errors ∧ i_parents !! e = Some (Some p) ∧ p ≠ "".

(** No error is its own ancestor. *)
Definition acyclic (i_errors : list string)
    (i_parents : gmap string (option string)) : Prop :=
  ∀ e, ¬ tc (inherits i_errors i_parents) e e.

(** Every error has an entry in the parent map. *)
Definition defined_on (i_errors : list string)
    (i_parents : gmap string (option string)) : Prop :=
  ∀ e, e ∈ i_errors → is_Some (i_parents !! e).

(** Every parent the code reads is an error of the batch. *)
Definition resolved (i_errors : list string)
    (i_parents : gmap string (option string)) : Prop :=
  ∀ e p, inherits i_errors i_parents e p → p ∈ i_errors.

(** In [out], every parent stands before its child. *)
Definition parents_first (i_parents : gmap string (option string))
    (out : list string) : Prop :=
  ∀ i e p, out !! i = Some e → i_parents !! e = Some (Some p) → p ≠ "" →
    ∃ j, j < i ∧ out !! j = Some p.

(** [e] can be appended to [out]: it has no parent, or its parent is in. *)
Definition ready (i_parents : gmap string (option string))
    (out : list string) (e : string) : Prop :=
  ∃ v, i_parents !! e = Some v ∧ (truthy v = false ∨ contains_val out v = true).

(** What the [while] loop keeps true of the list it builds. *)
Definition loop_inv (i_errors : list string)
    (i_parents : gmap string (option string)) (out : list string) : Prop :=
  NoDup out ∧ parents_first i_parents out ∧ ∀ e, e ∈ out → e ∈ i_errors.

(** A set of names none of which can ever be appended: each has a
    parent in the set. *)
Definition closed_cycle (i_parents : gmap string (option string))
    (S : string → Prop) : Prop :=
  ∀ x, S x → ∃ p, i_parents !! x = Some (Some p) ∧ p ≠ "" ∧ S p.

(** An entry the check accepts: [None], the empty string, or the name
    of an error of the list. *)
Definition accepted (i_errors : list string)
    (i_parents : gmap string (option string)) (e : string) : Prop :=
  ∃ v, i_parents !! e = Some v ∧ ∀ p, v = Some p → p ≠ "" → p ∈ i_errors.

(** ** Batches used as examples *)

(** [A] has no parent, [B] inherits [A], [C] inherits [B]; declared in
    the order [C], [A], [B]. *)
Definition chain_errors : list string := ["C"; "A"; "B"].
Definition chain_parents : gmap string (option string) :=
  <["C" := Some "B"]> (<["A" := None]> (<["B" := Some "A"]> ∅)).

(** An error that names itself as its parent. *)
Definition self_errors : list string := ["A"].
Definition self_parents : gmap string (option string) :=
  <["A" := Some "A"]> ∅.

(** Two errors that name each other. *)
Definition pair_errors : list string := ["A"; "B"].
Definition pair_parents : gmap string (option string) :=
  <["A" := Some "B"]> (<["B" := Some "A"]> ∅).

(** The name [A] loaded twice, and [B] inheriting it. *)
Definition twice_errors : list string := ["A"; "A"; "B"].
Definition twice_parents : gmap string (option string) :=
  <["A" := None]> (<["B" := Some "A"]> ∅).

(** A parent entry that is the empty string. *)
Definition blank_errors : list string := ["a.A"].
Definition blank_parents : gmap string (option string) :=
  <["a.A" := Some ""]> ∅.

(** [A] inherits [Z], which is defined nowhere. *)
Definition dangling_errors : list string := ["A"].
Definition dangling_parents : gmap string (option string) :=
  <["A" := Some "Z"]> ∅.

(** A ranking of the names [A], [B], others. *)
Definition abc_rank (s : string) : nat :=
  if String.eqb s "A" then 0 else if String.eqb s "B" then 1 else 2.

(** [old] starts at no position of [s], as a test. *)
Fixpoint occurs_nowhere (old s : string) : bool :=
  match s with
  | "" => negb (String.prefix old "")
  | String _ s' => negb (String.prefix old s) && occurs_nowhere old s'
  end.

(** ** Properties of stateful code *)

(** [m] writes no file and always answers. *)
Definition quiet {A : Type} (m : M A) : Prop :=
  ∀ w, files (m w).2 = files w ∧ (m w).1 ≠ NoFuel.

(** [d'] has a parent entry wherever [d] has one. *)
Definition keeps_parent_keys (d d' : elog_data) : Prop :=
  ∀ k, is_Some (parents d !! k) → is_Some (parents d' !! k).

(** [m] moreover leaves the error list as it is and removes no
    parent entry. *)
Definition steady {A : Type} (m : M A) : Prop :=
  ∀ w, files (m w).2 = files w ∧ (m w).1 ≠ NoFuel ∧
       errors (model (m w).2) = errors (model w) ∧
       keeps_parent_keys (model w) (model (m w).2).

(** Every error of the model has a parent entry. *)
Definition covered (d : elog_data) : Prop :=
  defined_on (errors d) (parents d).

(** [m] keeps the model covered, however it ends. *)
Definition keeps_covered {A : Type} (m : M A) : Prop :=
  ∀ w, covered (model w) → covered (model (m w).2).

(** The full names of the named records among [records]. *)
Definition full_names (i_namespace : string)
    (records : list error_record) : list string :=
  full_name i_namespace <$> omap er_name records.

(** ** Documents used as examples *)

(** One error document, [xyz/Foo.errors.yaml], declaring [Bar]; the
    template is there, a metadata document is not. *)
Definition lone_fs : filesystem :=
  FileSystem
    (λ path, String.eqb path "xyz/Foo.errors.yaml"
             || String.eqb path "templates/elog.mako.hpp")
    (λ _, [ErrorRecord (Some "Bar") (Some " a bar ")])
    (λ _, []).

(** The same with a metadata document that describes [Baz] only. *)
Definition other_fs : filesystem :=
  FileSystem
    (λ _, true)
    (λ _, [ErrorRecord (Some "Bar") None])
    (λ _, [MetaEntry "Baz" (Some "INFO") None
             (Some [MetaField "ERRNO=%d" "int32" (Some true)])]).


(** ** Further notions for the ordering *)

(** The test of line 39 on the entry of [e]: it has no parent the code
    reads ([None] or the empty string). *)
Definition has_no_parent (i_parents : gmap string (option string))
    (e : string) : bool :=
  match i_parents !! e with
  | Some v => negb (truthy v)
  | None => false
  end.

(** [B] inherits [A] and is declared first; [Y], [A], [X] have no
    parent. *)
Definition mixed_errors : list string := ["B"; "Y"; "A"; "X"].
Definition mixed_parents : gmap string (option string) :=
  <["B" := Some "A"]> (<["Y" := None]> (<["A" := None]> (<["X" := None]> ∅))).

(** ** Further notions for the loader *)

(** The keys of [typeMap]. *)
Definition known_types : list string :=
  ["int16"; "int32"; "int64"; "uint16"; "uint32"; "uint64"; "double";
   "string"].

(** [d'] differs from [d] in the field map and the process index at
    most. *)
Definition outside_fields (d d' : elog_data) : Prop :=
  errors d' = errors d ∧ error_msg d' = error_msg d ∧
  error_lvl d' = error_lvl d ∧ meta d' = meta d ∧ parents d' = parents d.

(** The short identifiers of a list of metadata fields, in order. *)
Definition short_names (fields : list meta_field) : list string :=
  (λ i, short_name (mf_str i)) <$> fields.

(** A metadata entry that cannot be loaded: an empty [inherits] list,
    or a field whose type tag is not a key of [typeMap]. *)
Definition unloadable (m : meta_entry) : Prop :=
  me_inherits m = Some [] ∨
  ∃ fields i, me_meta m = Some fields ∧ i ∈ fields ∧
    mf_type i ∉ known_types.

(** A metadata document with an entry for [Bar] whose second field has
    a type tag that is no key of [typeMap]. *)
Definition float_fs : filesystem :=
  FileSystem
    (λ _, true)
    (λ _, [ErrorRecord (Some "Bar") None])
    (λ _, [MetaEntry "Bar" (Some "INFO") (Some ["xyz.Foo.Base"])
             (Some [MetaField "ERRNO=%d" "int32" (Some true);
                    MetaField "RATIO=%f" "float" None])]).

(** A metadata document with a loadable entry for [Bar]. *)
Definition full_fs : filesystem :=
  FileSystem
    (λ _, true)
    (λ _, [ErrorRecord (Some "Bar") None])
    (λ _, [MetaEntry "Bar" None (Some ["xyz.Foo.Base"; "xyz.Foo.Other"])
             (Some [MetaField "ERRNO=%d" "int32" (Some true);
                    MetaField "FILE_NAME=%s" "string" None])]).

(** ** get_error_yaml_files (lines 63-77) *)

(** What [root.split(top)[1]] can raise. *)
Inductive split_fault : Type :=
| EmptySeparator
| NoSecondPiece.

(** [str.split(sep)] for a non-empty separator: the first piece and
    the remaining pieces; [skip] counts the characters of a matched
    separator that are still to be dropped. *)
Fixpoint split_from (sep : string) (skip : nat) (s : string)
    : string * list string :=
  match s with
  | "" => ("", [])
  | String c s' =>
      match skip with
      | S k => split_from sep k s'
      | O =>
          if String.prefix sep s
          then let '(h, t) := split_from sep (String.length sep - 1) s' in
               ("", h :: t)
          else let '(h, t) := split_from sep 0 s' in (String c h, t)
      end
  end.

(** [s.endswith(suffix)]: some tail of [s] is [suffix]. *)
Fixpoint endswith (s suffix : string) : bool :=
  String.eqb s suffix ||
  match s with
  | "" => false
  | String _ s' => endswith s' suffix
  end.

(** [s[:-n]] for a positive [n]. *)
Definition drop_last (n : nat) (s : string) : string :=
  substring 0 (String.length s - n) s.

(** [s[1:]]. *)
Definition drop_first (s : string) : string :=
  match s with
  | "" => ""
  | String _ s' => s'
  end.

(** [os.path.join(a, b)] of [posixpath]. *)
Definition path_join (a b : string) : string :=
  if String.prefix "/" b then b
  else if String.eqb a "" || endswith a "/" then a +:+ b
  else a +:+ "/" +:+ b.

(** [d[k] = v] on a dictionary kept with its keys in insertion order. *)
Fixpoint dict_set (k v : string) (d : list (string * string))
    : list (string * string) :=
  match d with
  | [] => [(k, v)]
  | (k', v') :: rest =>
      if String.eqb k' k then (k, v) :: rest
      else (k', v') :: dict_set k v rest
  end.

(** Lines 69-72 and 75-76 for one file found under [root]: the two
    loops differ in lines 70-71 only, which [strip] stands for. *)
Definition add_file (strip : bool) (top root file : string)
    (yaml_files : list (string * string))
    : split_fault + list (string * string) :=
  match top with
  | "" => inl EmptySeparator
  | _ =>
      match (split_from top 0 root).2 with
      | [] => inl NoSecondPiece
      | piece :: _ =>
          let splitdir := piece +:+ "/" +:+ drop_last 12 file in
          let splitdir :=
            if strip && String.prefix "/" splitdir then drop_first splitdir
            else splitdir in
          inr (dict_set (path_join root file) splitdir yaml_files)
      end
  end.

(** The inner loops of lines 67-72 and 74-76. *)
Fixpoint add_files (strip : bool) (top root : string) (files : list string)
    (yaml_files : list (string * string))
    : split_fault + list (string * string) :=
  match files with
  | [] => inr yaml_files
  | file :: rest =>
      if endswith file ".errors.yaml" then
        match add_file strip top root file yaml_files with
        | inl fault => inl fault
        | inr yaml_files' => add_files strip top root rest yaml_files'
        end
      else add_files strip top root rest yaml_files
  end.

(** The outer loops of lines 66 and 73 over what [os.walk(top)] yields,
    each root with its files. *)
Fixpoint add_roots (strip : bool) (top : string)
    (found : list (string * list string))
    (yaml_files : list (string * string))
    : split_fault + list (string * string) :=
  match found with
  | [] => inr yaml_files
  | (root, files) :: rest =>
      match add_files strip top root files yaml_files with
      | inl fault => inl fault
      | inr yaml_files' => add_roots strip top rest yaml_files'
      end
  end.

(** [walk] is [os.walk]: for a directory, the roots below it in the
    order they are yielded, each with its file names. *)
Definition get_error_yaml_files (walk : string → list (string * list string))
    (i_yaml_dir i_test_dir : string)
    : split_fault + list (string * string) :=
  match (if String.eqb i_yaml_dir "None" then inr []
         else add_roots true i_yaml_dir (walk i_yaml_dir) []) with
  | inl fault => inl fault
  | inr yaml_files => add_roots false i_test_dir (walk i_test_dir) yaml_files
  end.

(** The dictionary holds distinct paths, each ending in
    [.errors.yaml]. *)
Definition document_paths (yaml_files : list (string * string)) : Prop :=
  NoDup yaml_files.*1 ∧
  ∀ path, path ∈ yaml_files.*1 → endswith path ".errors.yaml" = true.

(** A walk of the directories [yaml] and [./tools/example/]. *)
Definition example_walk (top : string) : list (string * list string) :=
  if String.eqb top "yaml" then
    [("yaml", ["README.md"; "Top.errors.yaml"]);
     ("yaml/xyz/openbmc_project/Error/Callout",
      ["Device.errors.yaml"; "Device.metadata.yaml"])]
  else if String.eqb top "./tools/example/" then
    [("./tools/example/", ["Lone.errors.yaml"]);
     ("./tools/example/xyz/openbmc_project/Example",
      ["Elog.errors.yaml"; "Elog.metadata.yaml"])]
  else [].

(** The entry of the field map made for the metadata field [i] whose
    type resolved to [cpp_type]. *)
Definition field_entry (i : meta_field) (cpp_type : string)
    : gmap string string :=
  <["type" := cpp_type]> (<["str_short" := short_name (mf_str i)]>
    (<["str" := mf_str i]> ∅)).

(** * Facts about the Python runtime model *)

Lemma contains_true l x : contains l x = true ↔ x ∈ l.
Proof. unfold contains. by rewrite bool_decide_eq_true. Qed.

Lemma contains_false l x : contains l x = false ↔ x ∉ l.
Proof. unfold contains. by rewrite bool_decide_eq_false. Qed.

Lemma truthy_Some s : truthy (Some s) = true ↔ s ≠ "".
Proof.
  simpl. destruct (String.eqb_spec s ""); simpl; split; congruence.
Qed.

Lemma truthy_false v : truthy v = false ↔ v = None ∨ v = Some "".
Proof.
  destruct v as [s|]; simpl.
  - destruct (String.eqb_spec s ""); simpl; split; intros; subst; auto;
      try discriminate.
    destruct H as [|]; congruence.
  - split; auto.
Qed.

Lemma subscript_Ret {V} (d : gmap string V) k v :
  subscript d k = Ret v ↔ d !! k = Some v.
Proof. unfold subscript. destruct (d !! k); split; congruence. Qed.

Lemma bind_Ret {A B} (r : res A) (k : A → res B) b :
  bind r k = Ret b ↔ ∃ a, r = Ret a ∧ k a = Ret b.
Proof.
  destruct r; simpl; split; try (intros [? [? ?]]; congruence); try discriminate.
  eauto.
Qed.

(** * get_cpp_type *)

(** C7: each of the eight tags maps to its fixed output name, and every
    other tag makes the lookup fail with [KeyError] (no default). *)
Theorem get_cpp_type_table :
  get_cpp_type "int16" = Ret "int16_t" ∧
  get_cpp_type "int32" = Ret "int32_t" ∧
  get_cpp_type "int64" = Ret "int64_t" ∧
  get_cpp_type "uint16" = Ret "uint16_t" ∧
  get_cpp_type "uint32" = Ret "uint32_t" ∧
  get_cpp_type "uint64" = Ret "uint64_t" ∧
  get_cpp_type "double" = Ret "double" ∧
  get_cpp_type "string" = Ret "const char*" ∧
  (∀ i_type,
     i_type ∉ ["int16"; "int32"; "int64"; "uint16"; "uint32"; "uint64";
               "double"; "string"] →
     get_cpp_type i_type = Raise (KeyError i_type)) ∧
  (∀ i_type cpp, get_cpp_type i_type = Ret cpp →
     i_type ∈ ["int16"; "int32"; "int64"; "uint16"; "uint32"; "uint64";
               "double"; "string"]).
Proof.
  repeat (split; [reflexivity|]).
  assert (Hout : ∀ i_type,
     i_type ∉ ["int16"; "int32"; "int64"; "uint16"; "uint32"; "uint64";
               "double"; "string"] →
     get_cpp_type i_type = Raise (KeyError i_type)).
  { intros t Ht. unfold get_cpp_type, subscript, typeMap.
    repeat (apply not_elem_of_cons in Ht as [? Ht]).
    by rewrite !lookup_insert_ne, lookup_empty by done. }
  split; [exact Hout|].
  intros t cpp Hret.
  destruct (decide (t ∈ ["int16"; "int32"; "int64"; "uint16"; "uint32";
                         "uint64"; "double"; "string"])) as [|Hn]; [done|].
  rewrite (Hout t Hn) in Hret. discriminate.
Qed.

(** * order_inherited_errors *)

Section Ordering.

Variable i_parents : gmap string (option string).

Lemma has_inheritance_false i_errors :
  (∀ e, e ∈ i_errors → i_parents !! e = Some None) →
  has_inheritance i_parents i_errors = Ret false.
Proof.
  induction i_errors as [|e l IH]; intros Hall; [done|].
  simpl. unfold subscript. rewrite (Hall e) by left. simpl.
  apply IH. intros e' He'. apply Hall. by right.
Qed.

Lemma has_inheritance_false_inv i_errors :
  has_inheritance i_parents i_errors = Ret false →
  ∀ e, e ∈ i_errors → i_parents !! e = Some None.
Proof.
  induction i_errors as [|e l IH]; intros Hret e' He'.
  { by apply elem_of_nil in He'. }
  simpl in Hret. apply bind_Ret in Hret as [v [Hv Hk]].
  apply subscript_Ret in Hv. destruct v as [p|]; [discriminate|].
  apply elem_of_cons in He' as [->|He']; [done|]. by apply IH.
Qed.

Lemma has_inheritance_total i_errors :
  defined_on i_errors i_parents →
  ∃ b, has_inheritance i_parents i_errors = Ret b.
Proof.
  induction i_errors as [|e l IH]; intros Hdef; [by eexists|].
  simpl. destruct (Hdef e) as [v Hv]; [left|].
  unfold subscript. rewrite Hv. simpl. destruct v; [by eexists|].
  apply IH. intros e' He'. apply Hdef. by right.
Qed.

Lemma ready_mono out x e : ready i_parents out e → ready i_parents (out ++ [x]) e.
Proof.
  intros [v [Hv [Hf|Hin]]]; exists v; split; auto.
  right. destruct v as [p|]; [|done]. simpl in *.
  apply contains_true. apply contains_true in Hin.
  apply elem_of_app. by left.
Qed.

Lemma parents_first_snoc out e :
  parents_first i_parents out → ready i_parents out e →
  parents_first i_parents (out ++ [e]).
Proof.
  intros Hpf [v [Hv Hr]] i x p Hi Hx Hp.
  destruct (decide (i < length out)) as [Hlt|Hge].
  - rewrite lookup_app_l in Hi by done.
    destruct (Hpf i x p Hi Hx Hp) as [j [Hj Hjp]].
    exists j. split; [done|]. rewrite lookup_app_l by lia. done.
  - rewrite lookup_app_r in Hi by lia.
    apply list_lookup_singleton_Some in Hi as [Hi0 ->].
    rewrite Hx in Hv. injection Hv as <-.
    destruct Hr as [Hf|Hin].
    + apply truthy_false in Hf as [|]; congruence.
    + simpl in Hin. apply contains_true, list_elem_of_lookup in Hin as [j Hj].
      exists j. pose proof (lookup_lt_Some _ _ _ Hj).
      split; [lia|]. by rewrite lookup_app_l.
Qed.

(** What one pass of the [for] loop does to the list built so far. *)
Lemma scan_inv todo : ∀ out out',
  scan i_parents todo out = Ret out' →
  (∃ added, out' = out ++ added ∧ ∀ a, a ∈ added → a ∈ todo ∧ a ∉ out) ∧
  (NoDup out → NoDup out') ∧
  (parents_first i_parents out → parents_first i_parents out') ∧
  (∀ e, e ∈ todo → ready i_parents out e → e ∈ out').
Proof.
  induction todo as [|x todo IH]; intros out out' Hscan; simpl in Hscan.
  { injection Hscan as <-. split; [|split; [|split]]; auto.
    - exists []. rewrite app_nil_r. split; [done|]. intros a Ha.
      by apply elem_of_nil in Ha.
    - intros e He. by apply elem_of_nil in He. }
  destruct (contains out x) eqn:Hx.
  { apply contains_true in Hx.
    destruct (IH _ _ Hscan) as [[added [-> Hadd]] [Hnd [Hpf Hprog]]].
    split; [|split; [|split]]; auto.
    - exists added. split; [done|]. intros a Ha.
      destruct (Hadd a Ha). split; [by right|done].
    - intros e He Hr. apply elem_of_cons in He as [->|He]; [|by apply Hprog].
      apply elem_of_app. by left. }
  apply contains_false in Hx.
  apply bind_Ret in Hscan as [v [Hv Hscan]]. apply subscript_Ret in Hv.
  destruct (negb (truthy v) || contains_val out v) eqn:Hgo.
  - assert (Hready : ready i_parents out x).
    { exists v. split; [done|]. apply orb_true_iff in Hgo as [Hgo|Hgo]; auto.
      left. by apply negb_true_iff. }
    destruct (IH _ _ Hscan) as [[added [-> Hadd]] [Hnd [Hpf Hprog]]].
    split; [|split; [|split]].
    + exists (x :: added). rewrite <- app_assoc. split; [done|].
      intros a Ha. apply elem_of_cons in Ha as [->|Ha]; [split; [left|done]|].
      destruct (Hadd a Ha) as [Ht Hn]. split; [by right|].
      intros Hin. apply Hn, elem_of_app. by left.
    + intros Hout. apply Hnd. apply NoDup_app. split; [done|].
      split; [|apply NoDup_singleton].
      intros y Hy Hyx. apply list_elem_of_singleton in Hyx as ->. done.
    + intros Hout. apply Hpf. by apply parents_first_snoc.
    + intros e He Hr. apply elem_of_cons in He as [->|He].
      * rewrite <- app_assoc. apply elem_of_app. right. left.
      * apply Hprog; [done|]. by apply ready_mono.
  - destruct (IH _ _ Hscan) as [[added [-> Hadd]] [Hnd [Hpf Hprog]]].
    split; [|split; [|split]]; auto.
    + exists added. split; [done|]. intros a Ha.
      destruct (Hadd a Ha). split; [by right|done].
    + intros e He Hr. apply elem_of_cons in He as [->|He]; [|by apply Hprog].
      exfalso. destruct Hr as [v' [Hv' Hr]]. rewrite Hv in Hv'.
      injection Hv' as <-. apply orb_false_iff in Hgo as [Hg1 Hg2].
      apply negb_false_iff in Hg1. destruct Hr; congruence.
Qed.

Lemma scan_total todo : ∀ out,
  defined_on todo i_parents → ∃ out', scan i_parents todo out = Ret out'.
Proof.
  induction todo as [|x todo IH]; intros out Hdef; simpl; [by eexists|].
  assert (Hdef' : defined_on todo i_parents).
  { intros e He. apply Hdef. by right. }
  destruct (contains out x); [by apply IH|].
  destruct (Hdef x) as [v Hv]; [left|].
  unfold subscript. rewrite Hv. simpl.
  destruct (negb (truthy v) || contains_val out v); by apply IH.
Qed.

End Ordering.

Section OrderLoop.

Variable i_parents : gmap string (option string).
Variable i_errors : list string.

Lemma loop_inv_nil : loop_inv i_errors i_parents [].
Proof.
  split; [apply NoDup_nil_2|]. split.
  - intros i e p Hi. by rewrite lookup_nil in Hi.
  - intros e He. by apply elem_of_nil in He.
Qed.

Lemma scan_keeps_inv out out' :
  scan i_parents i_errors out = Ret out' →
  loop_inv i_errors i_parents out → loop_inv i_errors i_parents out'.
Proof.
  intros Hscan [Hnd [Hpf Hsub]].
  destruct (scan_inv _ _ _ _ Hscan) as [[added [-> Hadd]] [Hnd' [Hpf' _]]].
  split; [auto|]. split; [auto|].
  intros e He. apply elem_of_app in He as [He|He]; [auto|].
  by destruct (Hadd e He).
Qed.

Lemma loop_inv_length out :
  loop_inv i_errors i_parents out → length out ≤ length i_errors.
Proof.
  intros [Hnd [_ Hsub]]. apply submseteq_length. by apply NoDup_submseteq.
Qed.

Lemma loop_inv_full out :
  loop_inv i_errors i_parents out → length i_errors ≤ length out →
  out ≡ₚ i_errors.
Proof.
  intros [Hnd [_ Hsub]] Hlen. apply submseteq_length_Permutation; [|done].
  by apply NoDup_submseteq.
Qed.

(** Whatever the loop returns holds every error once, parents first. *)
Lemma order_loop_partial fuel : ∀ out out',
  order_loop fuel i_parents i_errors out = Ret out' →
  loop_inv i_errors i_parents out →
  loop_inv i_errors i_parents out' ∧ out' ≡ₚ i_errors.
Proof.
  induction fuel as [|fuel IH]; intros out out' Hloop Hinv; simpl in Hloop.
  - destruct (Nat.ltb_spec (length out) (length i_errors)); [discriminate|].
    injection Hloop as <-. split; [done|]. by apply loop_inv_full.
  - destruct (Nat.ltb_spec (length out) (length i_errors)).
    + apply bind_Ret in Hloop as [out1 [Hscan Hloop]].
      apply (IH _ _ Hloop). by apply (scan_keeps_inv out).
    + injection Hloop as <-. split; [done|]. by apply loop_inv_full.
Qed.

Lemma missing_error out :
  NoDup i_errors → length out < length i_errors →
  ∃ e, e ∈ i_errors ∧ e ∉ out.
Proof.
  intros Hnd Hlen.
  destruct (decide (Forall (λ e, e ∈ out) i_errors)) as [Hall|Hnot].
  - exfalso. rewrite Forall_forall in Hall.
    pose proof (submseteq_length _ _ (NoDup_submseteq _ _ Hnd Hall)). lia.
  - apply not_Forall_Exists in Hnot; [|apply _].
    apply Exists_exists in Hnot as [e [He Hn]]. by exists e.
Qed.

Lemma tc_inherits_in e e' :
  resolved i_errors i_parents →
  tc (inherits i_errors i_parents) e e' → e' ∈ i_errors.
Proof.
  intros Hres Htc. induction Htc as [x y Hxy|x y z Hxy Hyz IH]; [|done].
  by apply (Hres x).
Qed.

(** Without cycles some error that is still missing can be appended. *)
Lemma exists_ready out e0 :
  defined_on i_errors i_parents → resolved i_errors i_parents →
  acyclic i_errors i_parents →
  e0 ∈ i_errors → e0 ∉ out →
  ∃ e, e ∈ i_errors ∧ (e ∉ out) ∧ ready i_parents out e.
Proof.
  intros Hdef Hres Hacyc He0 Hn0.
  assert (Hsn : sn (inherits i_errors i_parents) e0).
  { apply tc_finite_sn; [exact Hacyc|].
    exists i_errors. intros y Hy. by apply (tc_inherits_in e0). }
  induction Hsn as [x _ IH].
  destruct (Hdef x He0) as [v Hv].
  destruct (truthy v) eqn:Htr.
  - destruct v as [p|]; [|discriminate]. apply truthy_Some in Htr.
    assert (Hxp : inherits i_errors i_parents x p) by done.
    destruct (decide (p ∈ out)) as [Hin|Hout].
    + exists x. split; [done|]. split; [done|]. exists (Some p).
      split; [done|]. right. by apply contains_true.
    + apply (IH p); [exact Hxp| by apply (Hres x) | done].
  - exists x. split; [done|]. split; [done|]. exists v. auto.
Qed.

Lemma scan_grows out out' :
  NoDup i_errors → defined_on i_errors i_parents →
  resolved i_errors i_parents → acyclic i_errors i_parents →
  length out < length i_errors →
  scan i_parents i_errors out = Ret out' → length out < length out'.
Proof.
  intros Hnd Hdef Hres Hacyc Hlen Hscan.
  destruct (missing_error out Hnd Hlen) as [e0 [He0 Hn0]].
  destruct (exists_ready out e0 Hdef Hres Hacyc He0 Hn0) as [e [He [Hn Hr]]].
  destruct (scan_inv _ _ _ _ Hscan) as [[added [-> Hadd]] [_ [_ Hprog]]].
  specialize (Hprog e He Hr). apply elem_of_app in Hprog as [|Hin]; [done|].
  rewrite length_app. destruct added; [by apply elem_of_nil in Hin|].
  simpl. lia.
Qed.

(** Without duplicates and cycles the loop ends within as many passes
    as there are errors still to append. *)
Lemma order_loop_total :
  NoDup i_errors → defined_on i_errors i_parents →
  resolved i_errors i_parents → acyclic i_errors i_parents →
  ∀ fuel out, length i_errors - length out ≤ fuel →
    ∃ out', order_loop fuel i_parents i_errors out = Ret out'.
Proof.
  intros Hnd Hdef Hres Hacyc.
  induction fuel as [|fuel IH]; intros out Hfuel; simpl.
  - destruct (Nat.ltb_spec (length out) (length i_errors)); [lia|].
    by eexists.
  - destruct (Nat.ltb_spec (length out) (length i_errors)); [|by eexists].
    destruct (scan_total i_parents i_errors out Hdef) as [out1 Hscan].
    rewrite Hscan. simpl. apply IH.
    pose proof (scan_grows out out1 Hnd Hdef Hres Hacyc H Hscan). lia.
Qed.

(** Names of a closed cycle are never appended. *)
Lemma scan_avoids_cycle (S : string → Prop) todo : ∀ out out',
  closed_cycle i_parents S →
  scan i_parents todo out = Ret out' →
  (∀ x, S x → x ∉ out) → (∀ x, S x → x ∉ out').
Proof.
  induction todo as [|y todo IH]; intros out out' Hcyc Hscan Hout;
    simpl in Hscan.
  { by injection Hscan as <-. }
  destruct (contains out y) eqn:Hy; [by apply (IH out)|].
  apply bind_Ret in Hscan as [v [Hv Hscan]]. apply subscript_Ret in Hv.
  destruct (negb (truthy v) || contains_val out v) eqn:Hgo;
    [|by apply (IH out)].
  apply (IH (out ++ [y])); [done|done|].
  intros x Hx Hin. apply elem_of_app in Hin as [Hin|Hin]; [by apply (Hout x)|].
  apply list_elem_of_singleton in Hin as ->.
  destruct (Hcyc y Hx) as [p [Hp [Hne Hsp]]].
  rewrite Hv in Hp. injection Hp as ->.
  apply orb_true_iff in Hgo as [Hgo|Hgo].
  - apply negb_true_iff in Hgo. apply truthy_false in Hgo as [|]; congruence.
  - simpl in Hgo. apply contains_true in Hgo. by apply (Hout p).
Qed.

(** With an error on a closed cycle the loop never returns. *)
Lemma order_loop_cycle (S : string → Prop) e fuel : ∀ out,
  closed_cycle i_parents S → S e → e ∈ i_errors →
  defined_on i_errors i_parents →
  loop_inv i_errors i_parents out → (∀ x, S x → x ∉ out) →
  order_loop fuel i_parents i_errors out = NoFuel.
Proof.
  intros out Hcyc He Hin Hdef. revert out.
  induction fuel as [|fuel IH]; intros out Hinv Hout; simpl.
  - destruct (Nat.ltb_spec (length out) (length i_errors)) as [|Hge]; [done|].
    exfalso. pose proof (loop_inv_full out Hinv Hge) as Hperm.
    apply (Hout e He). by rewrite Hperm.
  - destruct (Nat.ltb_spec (length out) (length i_errors)) as [|Hge].
    + destruct (scan_total i_parents i_errors out Hdef) as [out1 Hscan].
      rewrite Hscan. simpl. apply IH; [by apply (scan_keeps_inv out)|].
      by apply (scan_avoids_cycle S i_errors out).
    + exfalso. pose proof (loop_inv_full out Hinv Hge) as Hperm.
      apply (Hout e He). by rewrite Hperm.
Qed.

(** A pass that appends nothing is repeated for ever. *)
Lemma order_loop_fixpoint out fuel :
  scan i_parents i_errors out = Ret out →
  length out < length i_errors →
  order_loop fuel i_parents i_errors out = NoFuel.
Proof.
  intros Hscan Hlen. induction fuel as [|fuel IH]; simpl;
    destruct (Nat.ltb_spec (length out) (length i_errors)); try lia; [done|].
  rewrite Hscan. simpl. exact IH.
Qed.

End OrderLoop.

(** * check_error_inheritance *)

Section Checking.

Variable i_errors : list string.
Variable i_parents : gmap string (option string).

Lemma check_from_accepted e rest :
  accepted i_errors i_parents e →
  check_from i_errors i_parents (e :: rest) = check_from i_errors i_parents rest.
Proof.
  intros [v [Hv Hok]]. simpl. unfold subscript. rewrite Hv. simpl.
  destruct v as [p|]; [|done].
  destruct (truthy (Some p)) eqn:Htr; [|done].
  apply truthy_Some in Htr.
  assert (Hin : contains i_errors p = true) by (apply contains_true; auto).
  by rewrite Hin.
Qed.

Lemma check_from_passes todo :
  check_from i_errors i_parents todo = Ret ([], true) ↔
  ∀ e, e ∈ todo → accepted i_errors i_parents e.
Proof.
  induction todo as [|e todo IH].
  { split; [|done]. intros _ e He. by apply elem_of_nil in He. }
  split.
  - intros Hret.
    assert (Hacc : accepted i_errors i_parents e).
    { simpl in Hret. apply bind_Ret in Hret as [v [Hv Hret]].
      apply subscript_Ret in Hv. exists v. split; [done|].
      intros p -> Hp. apply truthy_Some in Hp. rewrite Hp in Hret. simpl in Hret.
      destruct (contains i_errors p) eqn:Hc; [by apply contains_true|].
      discriminate. }
    rewrite (check_from_accepted e todo Hacc) in Hret.
    intros x Hx. apply elem_of_cons in Hx as [->|Hx]; [done|]. by apply IH.
  - intros Hall. rewrite check_from_accepted by (apply Hall; left).
    apply IH. intros x Hx. apply Hall. by right.
Qed.

(** The first entry that is not accepted i_errors i_parents is the one reported. *)
Lemma check_from_first pre e p post :
  (∀ x, x ∈ pre → accepted i_errors i_parents x) →
  i_parents !! e = Some (Some p) → p ≠ "" → p ∉ i_errors →
  check_from i_errors i_parents (pre ++ e :: post)
  = Ret ([dangling_message e p], false).
Proof.
  intros Hpre Hp Hne Hout. induction pre as [|x pre IH]; simpl app.
  - simpl. unfold subscript. rewrite Hp. simpl.
    apply truthy_Some in Hne. simpl in Hne. rewrite Hne.
    apply contains_false in Hout. by rewrite Hout.
  - rewrite check_from_accepted by (apply Hpre; left).
    apply IH. intros y Hy. apply Hpre. by right.
Qed.

(** A verdict of failure always comes with the one line naming the
    first offending child and its parent. *)
Lemma check_from_fails todo msgs :
  check_from i_errors i_parents todo = Ret (msgs, false) →
  ∃ pre e p post, todo = pre ++ e :: post ∧ (∀ x, x ∈ pre → accepted i_errors i_parents x) ∧
    i_parents !! e = Some (Some p) ∧ p ≠ "" ∧ (p ∉ i_errors) ∧
    msgs = [dangling_message e p].
Proof.
  induction todo as [|x todo IH]; intros Hret; [discriminate|].
  simpl in Hret. apply bind_Ret in Hret as [v [Hv Hret]].
  apply subscript_Ret in Hv.
  assert (Hcase : (∃ p, v = Some p ∧ p ≠ "" ∧ p ∉ i_errors) ∨ accepted i_errors i_parents x).
  { destruct v as [p|]; [|right; exists None; split; [done|]; intros; discriminate].
    destruct (decide (p = "")) as [->|Hne];
      [right; exists (Some ""); split; [done|]; intros ? [= <-]; done|].
    destruct (decide (p ∈ i_errors)) as [Hin|Hout].
    - right. exists (Some p). split; [done|]. by intros ? [= <-].
    - left. by exists p. }
  destruct Hcase as [[p [-> [Hne Hout]]]|Hacc].
  - exists [], x, p, todo. apply truthy_Some in Hne as Htr. rewrite Htr in Hret.
    apply contains_false in Hout as Hc. rewrite Hc in Hret. simpl in Hret.
    injection Hret as <-. repeat split; try done.
    intros y Hy. by apply elem_of_nil in Hy.
  - assert (Hrest : check_from i_errors i_parents todo = Ret (msgs, false)).
    { rewrite <- (check_from_accepted x todo Hacc). simpl. unfold subscript.
      rewrite Hv. exact Hret. }
    destruct (IH Hrest) as [pre [e [p [post [-> [Hpre Hrest']]]]]].
    exists (x :: pre), e, p, post. split; [done|]. split; [|done].
    intros y Hy. apply elem_of_cons in Hy as [->|Hy]; auto.
Qed.

Lemma accepted_iff :
  (∀ e, e ∈ i_errors → accepted i_errors i_parents e) ↔
  defined_on i_errors i_parents ∧ resolved i_errors i_parents.
Proof.
  split.
  - intros Hall. split.
    + intros e He. destruct (Hall e He) as [v [Hv _]]. by exists v.
    + intros e p [He [Hp Hne]]. destruct (Hall e He) as [v [Hv Hok]].
      rewrite Hp in Hv. injection Hv as <-. by apply Hok.
  - intros [Hdef Hres] e He. destruct (Hdef e He) as [v Hv].
    exists v. split; [done|]. intros p -> Hne. by apply (Hres e).
Qed.

Lemma check_passes_iff :
  check_error_inheritance i_errors i_parents = Ret ([], true) ↔
  defined_on i_errors i_parents ∧ resolved i_errors i_parents.
Proof.
  unfold check_error_inheritance. rewrite check_from_passes.
  apply accepted_iff.
Qed.

End Checking.

(** * Ordering: what is returned, and when *)

Lemma order_partial fuel i_errors i_parents out :
  order_inherited_errors fuel i_errors i_parents = Ret out →
  out ≡ₚ i_errors ∧ parents_first i_parents out.
Proof.
  unfold order_inherited_errors. intros Hret.
  apply bind_Ret in Hret as [[|] [Hinh Hret]].
  - destruct (order_loop_partial _ _ _ _ _ Hret (loop_inv_nil _ _))
      as [[_ [Hpf _]] Hperm].
    done.
  - injection Hret as <-. split; [done|].
    intros i e p Hi Hp. apply list_elem_of_lookup_2 in Hi.
    rewrite (has_inheritance_false_inv _ _ Hinh e Hi) in Hp. discriminate.
Qed.

Lemma order_total i_errors i_parents :
  NoDup i_errors → defined_on i_errors i_parents →
  resolved i_errors i_parents → acyclic i_errors i_parents →
  ∃ out, order_inherited_errors (length i_errors) i_errors i_parents = Ret out.
Proof.
  intros Hnd Hdef Hres Hacyc. unfold order_inherited_errors.
  destruct (has_inheritance_total i_parents i_errors Hdef) as [b ->]. simpl.
  destruct b; [|by eexists].
  apply order_loop_total; try done. simpl. lia.
Qed.

(** With an error on a closed cycle, a validated batch is never ordered. *)
Lemma order_cycle (S : string → Prop) e fuel i_errors i_parents :
  closed_cycle i_parents S → S e → e ∈ i_errors →
  defined_on i_errors i_parents →
  order_inherited_errors fuel i_errors i_parents = NoFuel.
Proof.
  intros Hcyc He Hin Hdef. unfold order_inherited_errors.
  destruct (has_inheritance_total i_parents i_errors Hdef) as [b Hb].
  rewrite Hb. simpl. destruct b.
  - apply (order_loop_cycle _ _ S e); try done; [apply loop_inv_nil|].
    intros x _ Hx. by apply elem_of_nil in Hx.
  - destruct (Hcyc e He) as [p [Hp _]].
    rewrite (has_inheritance_false_inv _ _ Hb e Hin) in Hp. discriminate.
Qed.

(** A ranking that decreases from child to parent rules cycles out. *)
Lemma acyclic_by_rank (rank : string → nat) i_errors i_parents :
  (∀ e p, inherits i_errors i_parents e p → rank p < rank e) →
  acyclic i_errors i_parents.
Proof.
  intros Hrank e Htc.
  assert (Hlt : ∀ x y, tc (inherits i_errors i_parents) x y → rank y < rank x).
  { intros x y H. induction H as [x y Hxy|x y z Hxy _ IH].
    - by apply Hrank.
    - specialize (Hrank x y Hxy). lia. }
  specialize (Hlt e e Htc). lia.
Qed.

(** More passes than needed change nothing. *)
Lemma order_loop_more_fuel i_parents i_errors fuel : ∀ out out' k,
  order_loop fuel i_parents i_errors out = Ret out' →
  order_loop (fuel + k) i_parents i_errors out = Ret out'.
Proof.
  induction fuel as [|fuel IH]; intros out out' k Hret; simpl in Hret.
  - destruct (Nat.ltb (length out) (length i_errors)) eqn:Hlt; [discriminate|].
    destruct k; simpl; by rewrite Hlt.
  - simpl. destruct (Nat.ltb (length out) (length i_errors)); [|done].
    apply bind_Ret in Hret as [out1 [Hscan Hret]]. rewrite Hscan. simpl.
    by apply IH.
Qed.

Lemma order_more_fuel i_errors i_parents fuel fuel' out :
  fuel ≤ fuel' →
  order_inherited_errors fuel i_errors i_parents = Ret out →
  order_inherited_errors fuel' i_errors i_parents = Ret out.
Proof.
  intros Hle. unfold order_inherited_errors.
  destruct (has_inheritance i_parents i_errors) as [[|]| |]; simpl; try done.
  intros Hret. replace fuel' with (fuel + (fuel' - fuel)) by lia.
  by apply order_loop_more_fuel.
Qed.

Lemma chain_acyclic : acyclic chain_errors chain_parents.
Proof.
  apply (acyclic_by_rank abc_rank). intros e p [He [Hp _]].
  unfold chain_errors in He.
  repeat (apply elem_of_cons in He as [->|He]);
    [| | |by apply elem_of_nil in He];
    vm_compute in Hp; try discriminate; injection Hp as <-; vm_compute; lia.
Qed.

Lemma twice_acyclic : acyclic twice_errors twice_parents.
Proof.
  apply (acyclic_by_rank abc_rank). intros e p [He [Hp _]].
  unfold twice_errors in He.
  repeat (apply elem_of_cons in He as [->|He]);
    [| | |by apply elem_of_nil in He];
    vm_compute in Hp; try discriminate; injection Hp as <-; vm_compute; lia.
Qed.

Lemma chain_NoDup : NoDup chain_errors.
Proof. apply (bool_decide_unpack _). vm_compute. exact I. Qed.

(** C6: when every error's parent entry is [None] the result is the
    input list itself, in its declaration order. *)
Theorem order_no_inheritance fuel i_errors i_parents :
  (∀ e, e ∈ i_errors → i_parents !! e = Some None) →
  order_inherited_errors fuel i_errors i_parents = Ret i_errors.
Proof.
  intros Hnone. unfold order_inherited_errors.
  by rewrite has_inheritance_false.
Qed.

Lemma order_no_inheritance_witness :
  order_inherited_errors 0 ["B"; "A"] (<["A" := None]> (<["B" := None]> ∅))
  = Ret ["B"; "A"].
Proof.
  apply order_no_inheritance. intros e He.
  repeat (apply elem_of_cons in He as [->|He]);
    [| |by apply elem_of_nil in He]; reflexivity.
Defined.

(** C1 (amended): for a batch of pairwise distinct names that passes
    [check_error_inheritance] and has no parent cycle, the ordering
    returns, and what it returns is a permutation of the input in which
    every error whose parent entry is a non-empty name stands after that
    parent; [C], [A], [B] with [B] inheriting [A] and [C] inheriting [B]
    come out as [A], [B], [C]. *)
Theorem order_parents_first i_errors i_parents :
  NoDup i_errors →
  check_error_inheritance i_errors i_parents = Ret ([], true) →
  acyclic i_errors i_parents →
  (∃ out, ∀ fuel, length i_errors ≤ fuel →
     order_inherited_errors fuel i_errors i_parents = Ret out) ∧
  (∀ fuel out, order_inherited_errors fuel i_errors i_parents = Ret out →
     out ≡ₚ i_errors ∧
     ∀ i e p, out !! i = Some e → i_parents !! e = Some (Some p) → p ≠ "" →
       ∃ j, j < i ∧ out !! j = Some p) ∧
  order_inherited_errors 3 chain_errors chain_parents = Ret ["A"; "B"; "C"].
Proof.
  intros Hnd Hcheck Hacyc. apply check_passes_iff in Hcheck as [Hdef Hres].
  split; [|split; [|reflexivity]].
  - destruct (order_total i_errors i_parents Hnd Hdef Hres Hacyc) as [out Hout].
    exists out. intros fuel Hfuel. by apply (order_more_fuel _ _ (length i_errors)).
  - intros fuel out Hret. by apply order_partial in Hret.
Qed.

Lemma order_parents_first_witness :
  NoDup chain_errors ∧
  check_error_inheritance chain_errors chain_parents = Ret ([], true) ∧
  acyclic chain_errors chain_parents ∧
  ∃ out, ∀ fuel, length chain_errors ≤ fuel →
    order_inherited_errors fuel chain_errors chain_parents = Ret out.
Proof.
  split; [exact chain_NoDup|]. split; [reflexivity|].
  split; [exact chain_acyclic|].
  exact (proj1 (order_parents_first chain_errors chain_parents
                  chain_NoDup eq_refl chain_acyclic)).
Defined.

(** C1 fails when a name occurs twice: the batch [A], [A], [B] with [B]
    inheriting [A] passes validation, every parent names another error,
    there is no cycle, and the loop never ends. *)
Lemma order_duplicate_name_never_returns :
  check_error_inheritance twice_errors twice_parents = Ret ([], true) ∧
  (∀ e p, e ∈ twice_errors → twice_parents !! e = Some (Some p) →
     p ∈ twice_errors ∧ p ≠ e) ∧
  acyclic twice_errors twice_parents ∧
  ∀ fuel, order_inherited_errors fuel twice_errors twice_parents = NoFuel.
Proof.
  split; [reflexivity|]. split; [|split; [exact twice_acyclic|]].
  - intros e p He Hp. unfold twice_errors in He.
    repeat (apply elem_of_cons in He as [->|He]);
      [| | |by apply elem_of_nil in He];
      vm_compute in Hp; try discriminate; injection Hp as <-.
    split; [|done]. left.
  - intros [|fuel]; [reflexivity|].
    change (order_loop fuel twice_parents twice_errors ["A"; "B"] = NoFuel).
    apply order_loop_fixpoint; [reflexivity|]. simpl. lia.
Qed.

(** C2 (amended): a batch of pairwise distinct names that passes
    [check_error_inheritance] and has no parent cycle is ordered within
    as many passes as it has errors, and then every error has been
    appended.  (Validation alone does not exclude cycles.) *)
Theorem order_terminates i_errors i_parents :
  NoDup i_errors →
  check_error_inheritance i_errors i_parents = Ret ([], true) →
  acyclic i_errors i_parents →
  ∃ out,
    (∀ fuel, length i_errors ≤ fuel →
       order_inherited_errors fuel i_errors i_parents = Ret out) ∧
    length out = length i_errors ∧ ∀ e, e ∈ i_errors → e ∈ out.
Proof.
  intros Hnd Hcheck Hacyc. apply check_passes_iff in Hcheck as [Hdef Hres].
  destruct (order_total i_errors i_parents Hnd Hdef Hres Hacyc) as [out Hout].
  exists out. destruct (order_partial _ _ _ _ Hout) as [Hperm _].
  split; [|split].
  - intros fuel Hfuel. by apply (order_more_fuel _ _ (length i_errors)).
  - by rewrite Hperm.
  - intros e He. by rewrite Hperm.
Qed.

Lemma order_terminates_witness :
  ∃ out,
    (∀ fuel, length chain_errors ≤ fuel →
       order_inherited_errors fuel chain_errors chain_parents = Ret out) ∧
    length out = length chain_errors ∧ ∀ e, e ∈ chain_errors → e ∈ out.
Proof.
  exact (order_terminates chain_errors chain_parents
           chain_NoDup eq_refl chain_acyclic).
Defined.

Lemma self_cycle : closed_cycle self_parents (λ x, x = "A").
Proof. intros x ->. by exists "A". Qed.

Lemma pair_cycle : closed_cycle pair_parents (λ x, x = "A" ∨ x = "B").
Proof.
  intros x [->| ->]; [exists "B"|exists "A"]; repeat split; auto; done.
Qed.

(** C2 fails on cycles and on repeated names: an error that is its own
    parent, and two errors that are each other's parent, pass
    [check_error_inheritance], and so does a batch with a name loaded
    twice; on each of them the loop never ends. *)
Lemma cycles_survive_validation :
  (check_error_inheritance self_errors self_parents = Ret ([], true) ∧
   ∀ fuel, order_inherited_errors fuel self_errors self_parents = NoFuel) ∧
  (check_error_inheritance pair_errors pair_parents = Ret ([], true) ∧
   ∀ fuel, order_inherited_errors fuel pair_errors pair_parents = NoFuel) ∧
  (check_error_inheritance twice_errors twice_parents = Ret ([], true) ∧
   ∀ fuel, order_inherited_errors fuel twice_errors twice_parents = NoFuel).
Proof.
  split; [|split]; (split; [reflexivity|]); intros fuel.
  - apply (order_cycle (λ x, x = "A") "A"); [apply self_cycle|done|left|].
    by apply check_passes_iff.
  - apply (order_cycle (λ x, x = "A" ∨ x = "B") "A");
      [apply pair_cycle|by left|left|].
    by apply check_passes_iff.
  - destruct fuel as [|fuel]; [reflexivity|].
    change (order_loop fuel twice_parents twice_errors ["A"; "B"] = NoFuel).
    apply order_loop_fixpoint; [reflexivity|]. simpl. lia.
Qed.

(** The check reads a self-reference as it reads no parent at all. *)
Lemma check_from_self i_errors i_parents e todo :
  e ∈ i_errors → i_parents !! e = Some (Some e) →
  check_from i_errors i_parents todo
  = check_from i_errors (<[e := None]> i_parents) todo.
Proof.
  intros He Hp. induction todo as [|x todo IH]; [done|].
  simpl. unfold subscript. destruct (decide (x = e)) as [->|Hne].
  - rewrite Hp, lookup_insert_eq. simpl.
    apply contains_true in He. rewrite He, andb_false_r. exact IH.
  - rewrite lookup_insert_ne by done.
    destruct (i_parents !! x) as [[p|]|]; simpl; try done.
    by rewrite IH.
Qed.

(** After a successful validation the run is the ordering's: when the
    ordering does not return, neither does the run. *)
Lemma validate_then_order fuel error_yamls i_output_hpp w :
  check_error_inheritance (errors (model w)) (parents (model w))
  = Ret ([], true) →
  order_inherited_errors fuel (errors (model w)) (parents (model w)) = NoFuel →
  (validate_order_render fuel error_yamls i_output_hpp w).1 = NoFuel.
Proof.
  intros Hcheck Horder. unfold validate_order_render, mbind, get_model, lift.
  rewrite Hcheck. simpl. by rewrite Horder.
Qed.

(** C3 (amended): an error whose parent is its own name is not
    reported; the verdict of [check_error_inheritance] is the one for
    the batch without that parent reference, and when it is success
    (and the name is not empty) the batch goes on to the ordering,
    which never returns, and so the run after loading never does. *)
Theorem self_parent_not_rejected i_errors i_parents e :
  e ∈ i_errors → i_parents !! e = Some (Some e) →
  check_error_inheritance i_errors i_parents
  = check_error_inheritance i_errors (<[e := None]> i_parents) ∧
  (e ≠ "" →
   check_error_inheritance i_errors i_parents = Ret ([], true) →
   (∀ fuel, order_inherited_errors fuel i_errors i_parents = NoFuel) ∧
   (∀ fuel error_yamls i_output_hpp w,
      errors (model w) = i_errors → parents (model w) = i_parents →
      (validate_order_render fuel error_yamls i_output_hpp w).1 = NoFuel)).
Proof.
  intros He Hp. split; [by apply check_from_self|].
  intros Hne Hcheck.
  assert (Hloop : ∀ fuel, order_inherited_errors fuel i_errors i_parents = NoFuel).
  { intros fuel. apply check_passes_iff in Hcheck as [Hdef _].
    apply (order_cycle (λ x, x = e) e); try done.
    intros x ->. by exists e. }
  split; [exact Hloop|].
  intros fuel error_yamls i_output_hpp w <- <-.
  by apply validate_then_order.
Qed.

Lemma self_parent_not_rejected_witness :
  check_error_inheritance self_errors self_parents
  = check_error_inheritance self_errors (<["A" := None]> self_parents) ∧
  ∀ fuel, order_inherited_errors fuel self_errors self_parents = NoFuel.
Proof.
  assert (Hin : "A" ∈ self_errors) by left.
  assert (Hp : self_parents !! "A" = Some (Some "A")) by reflexivity.
  assert (Hne : "A" ≠ "") by discriminate.
  split.
  - exact (proj1 (self_parent_not_rejected self_errors self_parents "A" Hin Hp)).
  - exact (proj1 (proj2 (self_parent_not_rejected self_errors self_parents
                           "A" Hin Hp) Hne eq_refl)).
Defined.

(** C3 fails: the batch whose only error names itself as parent passes
    validation. *)
Lemma self_parent_passes_validation :
  self_parents !! "A" = Some (Some "A") ∧
  check_error_inheritance self_errors self_parents = Ret ([], true).
Proof. split; reflexivity. Qed.

(** * Strings: replace and split *)

#[local] Arguments String.append _ _ : simpl nomatch.

Lemma append_assoc (a b c : string) : (a +:+ b) +:+ c = a +:+ b +:+ c.
Proof. induction a as [|x a IH]; simpl; [done|]. by rewrite IH. Qed.

Lemma append_empty_r (a : string) : a +:+ "" = a.
Proof. induction a as [|x a IH]; simpl; [done|]. by rewrite IH. Qed.

Lemma length_append (a b : string) :
  String.length (a +:+ b) = String.length a + String.length b.
Proof. induction a as [|x a IH]; simpl; [done|]. by rewrite IH. Qed.

Lemma prefix_append old post : String.prefix old (old +:+ post) = true.
Proof.
  induction old as [|x old IH]; simpl; [by destruct post|].
  destruct (ascii_dec x x); [done|congruence].
Qed.

Lemma prefix_cons x old c s :
  String.prefix (String x old) (String c s)
  = if ascii_dec x c then String.prefix old s else false.
Proof. simpl. by destruct (ascii_dec x c). Qed.

Lemma prefix_split old s :
  String.prefix old s = true → ∃ post, s = old +:+ post.
Proof.
  revert s. induction old as [|x old IH]; intros s Hp; [by exists s|].
  destruct s as [|c s]; [discriminate|]. simpl in Hp.
  destruct (ascii_dec x c) as [->|]; [|discriminate].
  destruct (IH s Hp) as [post ->]. by exists post.
Qed.

(** Only the first [length old] characters decide a prefix test. *)
Lemma prefix_append_long old : ∀ x y,
  String.length old ≤ String.length x →
  String.prefix old (x +:+ y) = String.prefix old x.
Proof.
  induction old as [|c old IH]; intros x y Hlen.
  { by destruct x, y. }
  destruct x as [|d x]; simpl in Hlen; [lia|]. simpl.
  destruct (ascii_dec c d); [|done]. apply IH. lia.
Qed.

Lemma occurs_prefix old s : String.prefix old s = true → occurs old s.
Proof. intros Hp. destruct (prefix_split old s Hp) as [post ->]. by exists "", post. Qed.

Lemma occurs_tail old c s : occurs old s → occurs old (String c s).
Proof. intros [pre [post ->]]. by exists (String c pre), post. Qed.

Lemma occurs_nowhere_front old post :
  occurs_nowhere old (old +:+ post) = false.
Proof.
  pose proof (prefix_append old post) as Hp.
  destruct (old +:+ post) as [|c r]; cbn [occurs_nowhere]; by rewrite Hp.
Qed.

Lemma occurs_nowhere_sound old s :
  occurs_nowhere old s = true → ¬ occurs old s.
Proof.
  intros Hno [pre [post ->]]. induction pre as [|c pre IH].
  - change ("" +:+ old +:+ post) with (old +:+ post) in Hno.
    rewrite occurs_nowhere_front in Hno. discriminate.
  - simpl in Hno. apply andb_true_iff in Hno as [_ Hno]. by apply IH.
Qed.

Lemma replace_from_skip old new a : ∀ b,
  replace_from old new (String.length a) (a +:+ b) = replace_from old new 0 b.
Proof. induction a as [|c a IH]; intros b; simpl; [by destruct b|]. apply IH. Qed.

(** An occurrence at the front is replaced, and the scan resumes
    behind it. *)
Lemma replace_from_match old new b :
  old ≠ "" →
  replace_from old new 0 (old +:+ b) = new +:+ replace_from old new 0 b.
Proof.
  intros Hne. destruct old as [|c old]; [done|].
  change (String c old +:+ b) with (String c (old +:+ b)).
  cbn [replace_from].
  change (String c (old +:+ b)) with (String c old +:+ b).
  rewrite prefix_append. f_equal.
  replace (String.length (String c old) - 1) with (String.length old)
    by (simpl; lia).
  apply replace_from_skip.
Qed.

(** Where nothing matches, nothing changes. *)
Lemma replace_from_none old new s :
  ¬ occurs old s → replace_from old new 0 s = s.
Proof.
  induction s as [|c s IH]; intros Hno; [done|].
  cbn [replace_from].
  destruct (String.prefix old (String c s)) eqn:Hp.
  - exfalso. by apply Hno, occurs_prefix.
  - f_equal. apply IH. intros Hocc. by apply Hno, occurs_tail.
Qed.

(** A string free of [m] that starts the result started the input. *)
Lemma replace_keeps_prefix w : ∀ s,
  occurs_nowhere "m" w = true →
  String.prefix w (replace_from "errors" "metadata" 0 s) = true →
  String.prefix w s = true.
Proof.
  induction w as [|x w IH]; intros s Hm Hp; [by destruct s|].
  destruct s as [|c s]; [done|]. cbn [replace_from] in Hp.
  cbn [occurs_nowhere] in Hm. apply andb_true_iff in Hm as [Hx Hm].
  destruct (String.prefix "errors" (String c s)).
  - exfalso. simpl in Hp, Hx. destruct (ascii_dec x "m") as [->|]; [|done].
    simpl in Hx. destruct (ascii_dec "m" "m"); [|done]. by destruct w.
  - simpl in Hp. simpl. destruct (ascii_dec x c); [|done]. by apply IH.
Qed.

Lemma replace_leaves_none s : ∀ skip,
  occurs_nowhere "errors" (replace_from "errors" "metadata" skip s) = true.
Proof.
  induction s as [|c s IH]; intros skip; [done|].
  cbn [replace_from]. destruct skip as [|k]; [|apply IH].
  destruct (String.prefix "errors" (String c s)) eqn:Hp.
  - simpl. apply IH.
  - cbn [occurs_nowhere]. rewrite IH, andb_true_r.
    apply negb_true_iff.
    destruct (String.prefix "errors"
                (String c (replace_from "errors" "metadata" 0 s))) eqn:Hq;
      [|done].
    exfalso. rewrite (prefix_cons "e" "rrors") in Hq, Hp.
    destruct (ascii_dec "e" c) as [<-|]; [|done].
    apply (replace_keeps_prefix "rrors") in Hq; [|done]. congruence.
Qed.

(** C10: the metadata path is the error-document path with every
    occurrence of [errors] replaced by [metadata], leftmost first and
    wherever it stands (directory names included): a path without the
    word is returned as it is, the first occurrence is replaced and the
    rest of the path treated alike, and no occurrence is left. *)
Theorem get_meta_yaml_file_replaces_all :
  (∀ path, ¬ occurs "errors" path → get_meta_yaml_file path = path) ∧
  (∀ pre post, ¬ occurs "errors" (pre +:+ "error") →
     get_meta_yaml_file (pre +:+ "errors" +:+ post)
     = pre +:+ "metadata" +:+ get_meta_yaml_file post) ∧
  (∀ path, ¬ occurs "errors" (get_meta_yaml_file path)) ∧
  get_meta_yaml_file "errors/xyz/Foo.errors.yaml"
  = "metadata/xyz/Foo.metadata.yaml".
Proof.
  split; [|split; [|split; [|reflexivity]]].
  - intros path Hno. by apply replace_from_none.
  - intros pre post Hno. unfold get_meta_yaml_file, replace.
    induction pre as [|c pre IH].
    + by apply (replace_from_match "errors" "metadata" post).
    + change (String c pre +:+ "errors" +:+ post)
        with (String c (pre +:+ "errors" +:+ post)).
      cbn [replace_from].
      destruct (String.prefix "errors" (String c (pre +:+ "errors" +:+ post)))
        eqn:Hp.
      * exfalso. apply Hno, occurs_prefix.
        change (String c (pre +:+ "errors" +:+ post))
          with (String c pre +:+ "error" +:+ "s" +:+ post) in Hp.
        rewrite <- append_assoc in Hp.
        rewrite prefix_append_long in Hp; [done|].
        rewrite length_append. simpl. lia.
      * change (String c pre +:+ "metadata" +:+
                  replace_from "errors" "metadata" 0 post)
          with (String c (pre +:+ "metadata" +:+
                            replace_from "errors" "metadata" 0 post)).
        f_equal. apply IH. intros Hocc. by apply Hno, occurs_tail.
  - intros path. apply occurs_nowhere_sound. apply replace_leaves_none.
Qed.


(** * The loader *)

Section MonadFacts.

Context {A B : Type}.

Lemma steady_quiet (m : M A) : steady m → quiet m.
Proof. intros H w. destruct (H w) as [? [? ?]]. done. Qed.

Lemma steady_keeps_covered (m : M A) : steady m → keeps_covered m.
Proof.
  intros H w Hcov e He. destruct (H w) as [_ [_ [Herr Hkeys]]].
  rewrite Herr in He. by apply Hkeys, Hcov.
Qed.

Lemma steady_ret (a : A) : steady (ret a).
Proof. intros w. repeat split; try done; by intros k. Qed.

Lemma steady_raise e : steady (raise e : M A).
Proof. intros w. repeat split; try done; by intros k. Qed.

Lemma steady_lift (r : res A) : r ≠ NoFuel → steady (lift r).
Proof. intros Hr w. repeat split; try done; by intros k. Qed.

Lemma steady_bind (m : M A) (k : A → M B) :
  steady m → (∀ a, steady (k a)) → steady (mbind m k).
Proof.
  intros Hm Hk w. unfold mbind. destruct (Hm w) as [Hf [Hr [He Hp]]].
  destruct (m w) as [[a| |] w1]; simpl in *; [|done|done].
  destruct (Hk a w1) as [Hf' [Hr' [He' Hp']]].
  split; [congruence|]. split; [done|]. split; [congruence|].
  intros key Hkey. by apply Hp', Hp.
Qed.

Lemma keeps_covered_bind (m : M A) (k : A → M B) :
  keeps_covered m → (∀ a, keeps_covered (k a)) → keeps_covered (mbind m k).
Proof.
  intros Hm Hk w Hcov. unfold mbind. specialize (Hm w Hcov).
  destruct (m w) as [[a| |] w1]; simpl in *; [|done|done].
  by apply Hk.
Qed.

Lemma quiet_bind (m : M A) (k : A → M B) :
  quiet m → (∀ a, quiet (k a)) → quiet (mbind m k).
Proof.
  intros Hm Hk w. unfold mbind. destruct (Hm w) as [Hf Hr].
  destruct (m w) as [[a| |] w1]; simpl in *; [|done|done].
  destruct (Hk a w1) as [Hf' Hr']. split; congruence.
Qed.

End MonadFacts.

Lemma steady_print line : steady (print line).
Proof. intros w. repeat split; try done; by intros k. Qed.

Lemma steady_exit {A} code : steady (exit code : M A).
Proof. intros w. repeat split; try done; by intros k. Qed.

Lemma steady_update f :
  (∀ d, errors (f d) = errors d ∧ keeps_parent_keys d (f d)) →
  steady (update f).
Proof. intros Hf w. simpl. by destruct (Hf (model w)) as [-> ?]. Qed.

Lemma keeps_all_parents d f :
  parents (f d) = parents d → keeps_parent_keys d (f d).
Proof. intros Hp k. by rewrite Hp. Qed.

Lemma set_parent_keeps k v d : keeps_parent_keys d (set_parent k v d).
Proof.
  intros k' Hk'. simpl. destruct (decide (k = k')) as [->|Hne].
  - by rewrite lookup_insert_eq.
  - by rewrite lookup_insert_ne.
Qed.

(** The assignments that leave the error list and the parent keys. *)
Ltac steady_assignment :=
  apply steady_update; intros ?; split;
    [done|first [apply set_parent_keeps | by apply keeps_all_parents]].

Lemma keeps_covered_for_each {A} (l : list A) (body : A → M unit) :
  (∀ x, x ∈ l → keeps_covered (body x)) → keeps_covered (for_each l body).
Proof.
  induction l as [|x l IH]; intros Hq; [by intros w Hcov|].
  simpl. apply keeps_covered_bind; [apply Hq; left|].
  intros _. apply IH. intros y Hy. apply Hq. by right.
Qed.

Lemma get_cpp_type_answers i_type : get_cpp_type i_type ≠ NoFuel.
Proof. unfold get_cpp_type, subscript. by destruct (typeMap !! i_type). Qed.

Lemma quiet_for_each {A} (l : list A) (body : A → M unit) :
  (∀ x, x ∈ l → quiet (body x)) → quiet (for_each l body).
Proof.
  induction l as [|x l IH]; intros Hq; [done|].
  simpl. apply quiet_bind; [apply Hq; left|].
  intros _. apply IH. intros y Hy. apply Hq. by right.
Qed.

(** A loop with an element whose body always raises is aborted, at
    that element or before it. *)
Lemma for_each_aborts {A} (l : list A) (body : A → M unit) x :
  x ∈ l → (∀ y, y ∈ l → quiet (body y)) →
  (∀ w, ∃ e, (body x w).1 = Raise e) →
  ∀ w, ∃ e w', for_each l body w = (Raise e, w') ∧ files w' = files w.
Proof.
  intros Hx Hq Hraise. induction l as [|y l IH]; intros w.
  { by apply elem_of_nil in Hx. }
  simpl. unfold mbind. destruct (Hq y ltac:(left) w) as [Hf Hr].
  destruct (body y w) as [[[]|e|] w1] eqn:Hy; simpl in *; [| |done].
  - assert (Hxl : x ∈ l).
    { apply elem_of_cons in Hx as [->|]; [|done].
      destruct (Hraise w) as [e He]. rewrite Hy in He. discriminate. }
    destruct (IH Hxl ltac:(intros; apply Hq; by right) w1) as [e [w' [-> Hw']]].
    exists e, w'. split; [done|]. congruence.
  - by exists e, w1.
Qed.


Section LoaderFacts.

Variable str_of_record : error_record → string.
Variable fs : filesystem.

Lemma steady_load_meta_field fullname i : steady (load_meta_field fullname i).
Proof.
  unfold load_meta_field.
  repeat (apply steady_bind; [|intros ?]);
    try steady_assignment; try apply steady_ret.
  - apply steady_lift, get_cpp_type_answers.
  - destruct (mf_process i) as [[|]|];
      [steady_assignment|apply steady_ret|apply steady_ret].
Qed.

Lemma steady_load_meta_fields fullname fields : ∀ tmp_meta,
  steady (load_meta_fields fullname fields tmp_meta).
Proof.
  induction fields as [|i fields IH]; intros tmp_meta; [apply steady_ret|].
  simpl. apply steady_bind; [apply steady_load_meta_field|]. intros ?. apply IH.
Qed.

Lemma steady_load_match fullname match_ : steady (load_match fullname match_).
Proof.
  unfold load_match.
  repeat (apply steady_bind; [|intros ?]); try steady_assignment.
  - destruct (me_inherits match_) as [[|parent ?]|];
      [apply steady_raise|steady_assignment|apply steady_ret].
  - destruct (me_meta match_); [apply steady_load_meta_fields|apply steady_ret].
Qed.

Lemma steady_load_metadata i_elog_meta_yaml name fullname :
  steady (load_metadata fs i_elog_meta_yaml name fullname).
Proof.
  unfold load_metadata.
  destruct (negb (isfile fs i_elog_meta_yaml)); [apply steady_ret|].
  destruct (find_match name (load_meta fs i_elog_meta_yaml));
    [apply steady_load_match|apply steady_print].
Qed.

(** What follows the append of the full name at line 202. *)
Lemma steady_load_named i_elog_meta_yaml name fullname description :
  steady
    ((match description with
      | Some description => update (set_error_msg fullname (strip description))
      | None => ret tt
      end) ;;
     update (set_error_lvl fullname "ERR") ;;
     update (set_parent fullname None) ;;
     load_metadata fs i_elog_meta_yaml name fullname).
Proof.
  repeat (apply steady_bind; [|intros ?]); try steady_assignment.
  - destruct description; [steady_assignment|apply steady_ret].
  - apply steady_load_metadata.
Qed.

(** A record without a name: the message, then [exit(1)]; the model is
    left as it was. *)
Lemma load_error_nameless i_elog_yaml i_elog_meta_yaml i_namespace error w :
  er_name error = None →
  load_error str_of_record fs i_elog_yaml i_elog_meta_yaml i_namespace error w
  = (Raise (SystemExit 1),
     World (stdout w ++ [missing_name_message str_of_record error i_elog_yaml])
           (model w) (files w)).
Proof. intros Hname. unfold load_error. by rewrite Hname. Qed.

Lemma load_error_errors i_elog_yaml i_elog_meta_yaml i_namespace error w :
  errors (model (load_error str_of_record fs i_elog_yaml i_elog_meta_yaml
                   i_namespace error w).2)
  = errors (model w) ++ full_names i_namespace [error].
Proof.
  unfold load_error, full_names. destruct (er_name error) as [name|] eqn:Hname.
  - cbn [omap list_omap fmap list_fmap]. rewrite Hname. simpl.
    unfold mbind at 1. cbn [update].
    match goal with |- context [(?m ;; ?k) ?w'] =>
      destruct (steady_load_named i_elog_meta_yaml name
                  (full_name i_namespace name) (er_description error) w')
        as [_ [_ [He _]]] end.
    rewrite He. done.
  - cbn [omap list_omap]. rewrite Hname. simpl. by rewrite app_nil_r.
Qed.

Lemma quiet_load_error i_elog_yaml i_elog_meta_yaml i_namespace error :
  quiet (load_error str_of_record fs i_elog_yaml i_elog_meta_yaml
           i_namespace error).
Proof.
  unfold load_error. destruct (er_name error) as [name|].
  - apply quiet_bind; [done|]. intros _. apply steady_quiet.
    apply steady_load_named.
  - done.
Qed.

Lemma quiet_get_elog_data i_elog_yaml i_elog_meta_yaml i_namespace :
  quiet (get_elog_data str_of_record fs i_elog_yaml i_elog_meta_yaml
           i_namespace).
Proof.
  apply quiet_for_each. intros error _. apply quiet_load_error.
Qed.

Lemma quiet_load_error_yaml i_template_dir i_elog_mako entry :
  quiet (load_error_yaml str_of_record fs i_template_dir i_elog_mako entry).
Proof.
  unfold load_error_yaml. destruct (negb (isfile fs entry.1)); [done|].
  destruct (negb (isfile fs _)); [done|]. apply quiet_get_elog_data.
Qed.


(** Loading one record keeps every error of the model with a parent
    entry: the entry is set right after the name is appended. *)
Lemma keeps_covered_load_error i_elog_yaml i_elog_meta_yaml i_namespace error :
  keeps_covered (load_error str_of_record fs i_elog_yaml i_elog_meta_yaml
                   i_namespace error).
Proof.
  intros w Hcov. unfold load_error. destruct (er_name error) as [name|]; [|done].
  set (fullname := full_name i_namespace name).
  assert (Hstep : ∀ d, errors d = errors (model w) ++ [fullname] →
            parents d = <[fullname := None]> (parents (model w)) →
            covered (model (load_metadata fs i_elog_meta_yaml name fullname
                              (World (stdout w) d (files w))).2)).
  { intros d Herr Hpar e Hin.
    destruct (steady_load_metadata i_elog_meta_yaml name fullname
                (World (stdout w) d (files w))) as [_ [_ [He Hk]]].
    rewrite He in Hin. apply Hk. simpl in Hin |- *. rewrite Herr in Hin.
    rewrite Hpar. apply elem_of_app in Hin as [Hin|Hin].
    - destruct (decide (fullname = e)) as [->|Hne];
        [by rewrite lookup_insert_eq|].
      rewrite lookup_insert_ne by done. by apply Hcov.
    - apply list_elem_of_singleton in Hin as ->. by rewrite lookup_insert_eq. }
  destruct (er_description error); cbv [mbind update ret]; by apply Hstep.
Qed.

Lemma keeps_covered_get_elog_data i_elog_yaml i_elog_meta_yaml i_namespace :
  keeps_covered (get_elog_data str_of_record fs i_elog_yaml i_elog_meta_yaml
                   i_namespace).
Proof.
  apply keeps_covered_for_each. intros error _. apply keeps_covered_load_error.
Qed.

Lemma keeps_covered_load_error_yaml i_template_dir i_elog_mako entry :
  keeps_covered (load_error_yaml str_of_record fs i_template_dir i_elog_mako
                   entry).
Proof.
  unfold load_error_yaml. destruct (negb (isfile fs entry.1)); [by intros w|].
  destruct (negb (isfile fs _)); [by intros w|].
  apply keeps_covered_get_elog_data.
Qed.

(** After the loading, however it ended, every error of the model has
    a parent entry: the validation never fails on a missing key. *)
Lemma loaded_model_covered i_template_dir i_elog_mako error_yamls w :
  covered (model w) →
  covered (model (for_each error_yamls
                    (load_error_yaml str_of_record fs i_template_dir
                       i_elog_mako) w).2).
Proof.
  apply keeps_covered_for_each. intros entry _.
  apply keeps_covered_load_error_yaml.
Qed.

End LoaderFacts.


(** C5 (as the code has it): an error loaded without a metadata
    document, or with a metadata document that has no entry of its
    name, gets severity [ERR] and parent [None], but no entry at all in
    the metadata-list map. *)
Theorem unmatched_error_gets_no_meta_entry :
  ∀ str_of_record : error_record → string,
  (let w := (get_elog_data str_of_record lone_fs "xyz/Foo.errors.yaml"
               "xyz/Foo.metadata.yaml" "xyz/Foo" initial_world).2 in
   isfile lone_fs "xyz/Foo.metadata.yaml" = false ∧
   errors (model w) = ["xyz.Foo.Bar"] ∧
   error_lvl (model w) !! "xyz.Foo.Bar" = Some "ERR" ∧
   parents (model w) !! "xyz.Foo.Bar" = Some None ∧
   meta (model w) !! "xyz.Foo.Bar" = None) ∧
  (let w := (get_elog_data str_of_record other_fs "xyz/Foo.errors.yaml"
               "xyz/Foo.metadata.yaml" "xyz/Foo" initial_world).2 in
   find_match "Bar" (load_meta other_fs "xyz/Foo.metadata.yaml") = None ∧
   errors (model w) = ["xyz.Foo.Bar"] ∧
   error_lvl (model w) !! "xyz.Foo.Bar" = Some "ERR" ∧
   parents (model w) !! "xyz.Foo.Bar" = Some None ∧
   meta (model w) !! "xyz.Foo.Bar" = None).
Proof. intros str_of_record. split; repeat split; reflexivity. Qed.

(** * The run: loading, validation, ordering, writing *)

Section Run.

Variable str_of_record : error_record → string.
Variable fs : filesystem.

(** A failed validation ends the run before the ordering. *)
Lemma validate_fails fuel error_yamls i_output_hpp w msgs :
  check_error_inheritance (errors (model w)) (parents (model w))
  = Ret (msgs, false) →
  validate_order_render fuel error_yamls i_output_hpp w
  = (Raise (SystemExit 1),
     World (stdout w ++ msgs
              ++ ["Error - failed to validate error inheritance"])
           (model w) (files w)).
Proof.
  intros Hcheck. unfold validate_order_render, mbind, get_model, lift.
  rewrite Hcheck. simpl. by rewrite <- app_assoc.
Qed.

(** C4 (amended): [check_error_inheritance] returns success exactly
    when every error has a parent entry and every entry that is neither
    [None] nor the empty string is a name of the error list; at the
    first error in list order with another entry it returns failure
    with the one line naming child and parent; and then the run exits
    with status 1 after the loading, whatever the ordering would do,
    with no file written. *)
Theorem check_error_inheritance_verdict i_errors i_parents :
  (check_error_inheritance i_errors i_parents = Ret ([], true) ↔
   defined_on i_errors i_parents ∧ resolved i_errors i_parents) ∧
  (∀ pre e p post,
     i_errors = pre ++ e :: post →
     (∀ x, x ∈ pre → accepted i_errors i_parents x) →
     i_parents !! e = Some (Some p) → p ≠ "" → p ∉ i_errors →
     check_error_inheritance i_errors i_parents
     = Ret ([e +:+ " inherits " +:+ p +:+ " but the latter is not defined"],
            false)) ∧
  (∀ msgs, check_error_inheritance i_errors i_parents = Ret (msgs, false) →
     ∃ pre e p post,
       i_errors = pre ++ e :: post ∧
       (∀ x, x ∈ pre → accepted i_errors i_parents x) ∧
       i_parents !! e = Some (Some p) ∧ p ≠ "" ∧ (p ∉ i_errors) ∧
       msgs = [e +:+ " inherits " +:+ p +:+ " but the latter is not defined"]) ∧
  (∀ msgs fuel error_yamls i_output_hpp i_template_dir i_elog_mako w w1,
     for_each error_yamls
       (load_error_yaml str_of_record fs i_template_dir i_elog_mako) w
     = (Ret tt, w1) →
     errors (model w1) = i_errors → parents (model w1) = i_parents →
     check_error_inheritance i_errors i_parents = Ret (msgs, false) →
     gen_elog_hpp str_of_record fuel fs error_yamls i_output_hpp
       i_template_dir i_elog_mako w
     = (Raise (SystemExit 1),
        World (stdout w1 ++ msgs
                 ++ ["Error - failed to validate error inheritance"])
              (model w1) (files w))) ∧
  check_error_inheritance dangling_errors dangling_parents
  = Ret (["A inherits Z but the latter is not defined"], false).
Proof.
  split; [apply check_passes_iff|]. split; [|split; [|split; [|reflexivity]]].
  - intros pre e p post -> Hpre Hp Hne Hout. by apply check_from_first.
  - intros msgs Hret. by apply check_from_fails in Hret.
  - intros msgs fuel error_yamls i_output_hpp i_template_dir i_elog_mako w w1
      Hload <- <- Hcheck.
    unfold gen_elog_hpp, mbind. rewrite Hload.
    rewrite (validate_fails _ _ _ _ msgs Hcheck). f_equal. f_equal.
    pose proof (quiet_for_each error_yamls
      (load_error_yaml str_of_record fs i_template_dir i_elog_mako)
      ltac:(intros; apply quiet_load_error_yaml) w) as [Hf _].
    by rewrite Hload in Hf.
Qed.

(** C4 fails on an empty parent string: it is a parent value that is
    not [None] and not in the list, and the check succeeds. *)
Lemma blank_parent_passes_validation :
  blank_parents !! "a.A" = Some (Some "") ∧
  ("" ∉ blank_errors) ∧
  check_error_inheritance blank_errors blank_parents = Ret ([], true).
Proof.
  split; [reflexivity|]. split; [|reflexivity].
  intros Hin. apply elem_of_cons in Hin as [|Hin]; [discriminate|].
  by apply elem_of_nil in Hin.
Qed.


End Run.


(** * Further properties of the ordering *)

Section OrderMore.

Variable i_parents : gmap string (option string).

(** Every name a pass appends was looked up in the parent map. *)
Lemma scan_added_defined todo : ∀ out out',
  scan i_parents todo out = Ret out' →
  defined_on out i_parents → defined_on out' i_parents.
Proof.
  induction todo as [|x todo IH]; intros out out' Hscan Hdef; simpl in Hscan.
  { by injection Hscan as <-. }
  destruct (contains out x); [by apply (IH out)|].
  apply bind_Ret in Hscan as [v [Hv Hscan]]. apply subscript_Ret in Hv.
  destruct (negb (truthy v) || contains_val out v); [|by apply (IH out)].
  apply (IH (out ++ [x])); [done|]. intros e He.
  apply elem_of_app in He as [He|He]; [by apply Hdef|].
  apply list_elem_of_singleton in He as ->. by exists v.
Qed.

Lemma order_loop_defined i_errors fuel : ∀ out out',
  order_loop fuel i_parents i_errors out = Ret out' →
  defined_on out i_parents → defined_on out' i_parents.
Proof.
  induction fuel as [|fuel IH]; intros out out' Hloop Hdef; simpl in Hloop;
    destruct (Nat.ltb (length out) (length i_errors)); try discriminate;
    try (by injection Hloop as <-).
  apply bind_Ret in Hloop as [out1 [Hscan Hloop]].
  apply (IH _ _ Hloop). by apply (scan_added_defined i_errors out).
Qed.

(** A list that holds every error once, parents first, shows that no
    error is its own ancestor. *)
Lemma parents_first_acyclic i_errors out :
  NoDup out → parents_first i_parents out →
  (∀ e, e ∈ i_errors → e ∈ out) →
  acyclic i_errors i_parents.
Proof.
  intros Hnd Hpf Hall.
  assert (Hdown : ∀ x y, tc (inherits i_errors i_parents) x y →
            ∀ i, out !! i = Some x → ∃ j, j < i ∧ out !! j = Some y).
  { intros x y Htc. induction Htc as [x y [_ [Hp Hne]]|x y z [_ [Hp Hne]] _ IH];
      intros i Hi.
    - by apply (Hpf i x y).
    - destruct (Hpf i x y Hi Hp Hne) as [j [Hj Hjy]].
      destruct (IH j Hjy) as [k [Hk Hkz]]. exists k. split; [lia|done]. }
  intros e Htc.
  assert (He : e ∈ i_errors).
  { clear Hdown. inversion Htc as [? ? [He _]|? ? ? [He _] _]; by subst. }
  apply Hall, list_elem_of_lookup in He as [i Hi].
  destruct (Hdown e e Htc i Hi) as [j [Hj Hje]].
  pose proof (NoDup_lookup _ _ _ _ Hnd Hi Hje). lia.
Qed.

(** A list already in parents-first order is gone through in one pass. *)
Lemma scan_ordered rest : ∀ pre,
  NoDup (pre ++ rest) → defined_on rest i_parents →
  parents_first i_parents (pre ++ rest) →
  scan i_parents rest pre = Ret (pre ++ rest).
Proof.
  induction rest as [|x rest IH]; intros pre Hnd Hdef Hpf; simpl.
  { by rewrite app_nil_r. }
  assert (Hx : x ∉ pre).
  { apply NoDup_app in Hnd as [_ [Hdis _]]. intros Hin.
    apply (Hdis x Hin). left. }
  apply contains_false in Hx as Hc. rewrite Hc.
  destruct (Hdef x) as [v Hv]; [left|]. unfold subscript. rewrite Hv. simpl.
  assert (Hgo : negb (truthy v) || contains_val pre v = true).
  { destruct (truthy v) eqn:Htr; [|done]. simpl.
    destruct v as [p|]; [|discriminate]. apply truthy_Some in Htr.
    destruct (Hpf (length pre) x p) as [j [Hj Hjp]]; [|done|done|].
    - by rewrite lookup_app_r, Nat.sub_diag by lia.
    - rewrite lookup_app_l in Hjp by done. simpl.
      apply contains_true. by apply list_elem_of_lookup_2 in Hjp. }
  rewrite Hgo. rewrite (IH (pre ++ [x])).
  - by rewrite <- app_assoc.
  - by rewrite <- app_assoc.
  - intros e He. apply Hdef. by right.
  - by rewrite <- app_assoc.
Qed.

Lemma order_ordered fuel i_errors :
  NoDup i_errors → defined_on i_errors i_parents →
  parents_first i_parents i_errors →
  order_inherited_errors (S fuel) i_errors i_parents = Ret i_errors.
Proof.
  intros Hnd Hdef Hpf. unfold order_inherited_errors.
  destruct (has_inheritance_total i_parents i_errors Hdef) as [[|] ->];
    [|done].
  cbn [bind order_loop].
  destruct (Nat.ltb_spec (length (@nil string)) (length i_errors)) as [|Hge].
  - rewrite (scan_ordered i_errors []) by done. simpl.
    destruct fuel; simpl; by rewrite Nat.ltb_irrefl.
  - destruct i_errors; [done|simpl in Hge; lia].
Qed.

End OrderMore.

(** What a returned ordering says about the batch it was given. *)
Lemma order_returns_facts fuel i_errors i_parents out :
  order_inherited_errors fuel i_errors i_parents = Ret out →
  defined_on i_errors i_parents ∧ resolved i_errors i_parents ∧
  acyclic i_errors i_parents ∧
  (out = i_errors ∧ has_inheritance i_parents i_errors = Ret false ∨
   NoDup out ∧ has_inheritance i_parents i_errors = Ret true).
Proof.
  intros Hret. destruct (order_partial _ _ _ _ Hret) as [Hperm Hpf].
  unfold order_inherited_errors in Hret.
  apply bind_Ret in Hret as [[|] [Hinh Hret]].
  - destruct (order_loop_partial _ _ _ _ _ Hret (loop_inv_nil _ _))
      as [[Hnd _] _].
    assert (Hdef : defined_on i_errors i_parents).
    { intros e He. rewrite <- Hperm in He. revert e He.
      apply (order_loop_defined i_parents i_errors fuel [] out Hret).
      intros e He. by apply elem_of_nil in He. }
    split; [done|]. split; [|split; [|by right]].
    + intros e p [He [Hp Hne]]. rewrite <- Hperm in He.
      apply list_elem_of_lookup in He as [i Hi].
      destruct (Hpf i e p Hi Hp Hne) as [j [_ Hj]].
      rewrite <- Hperm. by apply list_elem_of_lookup_2 in Hj.
    + apply (parents_first_acyclic i_parents i_errors out); try done.
      intros e He. by rewrite Hperm.
  - injection Hret as <-.
    pose proof (has_inheritance_false_inv _ _ Hinh) as Hnone.
    split; [intros e He; rewrite (Hnone e He); by eexists|].
    split; [|split; [|by left]].
    + intros e p [He [Hp _]]. rewrite (Hnone e He) in Hp. discriminate.
    + intros e Htc.
      inversion Htc as [? ? [He [Hp _]]|? ? ? [He [Hp _]] _]; subst;
        rewrite (Hnone e He) in Hp; discriminate.
Qed.

(** X1: the ordering returns only on a batch that validation accepts
    and that has no parent cycle, with pairwise distinct names whenever
    some parent entry is not [None]; on every other batch it raises or
    goes on for ever. *)
Theorem order_returns_only_on_valid_batch fuel i_errors i_parents out :
  order_inherited_errors fuel i_errors i_parents = Ret out →
  check_error_inheritance i_errors i_parents = Ret ([], true) ∧
  acyclic i_errors i_parents ∧
  (has_inheritance i_parents i_errors = Ret true → NoDup i_errors).
Proof.
  intros Hret. destruct (order_partial _ _ _ _ Hret) as [Hperm _].
  destruct (order_returns_facts _ _ _ _ Hret) as [Hdef [Hres [Hacyc Hcase]]].
  split; [by apply check_passes_iff|]. split; [done|].
  intros Hinh. destruct Hcase as [[_ Hno]|[Hnd _]]; [congruence|].
  by rewrite <- Hperm.
Qed.

Lemma order_returns_only_on_valid_batch_witness :
  check_error_inheritance chain_errors chain_parents = Ret ([], true) ∧
  acyclic chain_errors chain_parents ∧
  (has_inheritance chain_parents chain_errors = Ret true → NoDup chain_errors).
Proof.
  exact (order_returns_only_on_valid_batch 3 chain_errors chain_parents
           ["A"; "B"; "C"] eq_refl).
Defined.

(** X2: a list of distinct names, each with a parent entry, in which
    every parent already stands before its child is returned as it is,
    after a single pass. *)
Theorem order_keeps_ordered_list fuel i_errors i_parents :
  NoDup i_errors → defined_on i_errors i_parents →
  parents_first i_parents i_errors →
  order_inherited_errors (S fuel) i_errors i_parents = Ret i_errors.
Proof. apply order_ordered. Qed.

Lemma abc_parents_first : parents_first chain_parents ["A"; "B"; "C"].
Proof.
  destruct (order_partial 3 chain_errors chain_parents ["A"; "B"; "C"] eq_refl)
    as [_ Hpf].
  exact Hpf.
Qed.

Lemma abc_defined : defined_on ["A"; "B"; "C"] chain_parents.
Proof.
  intros e He. repeat (apply elem_of_cons in He as [->|He]);
    [| | |by apply elem_of_nil in He]; by eexists.
Qed.

Lemma abc_NoDup : NoDup ["A"; "B"; "C"].
Proof. apply (bool_decide_unpack _). vm_compute. exact I. Qed.

Lemma order_keeps_ordered_list_witness :
  order_inherited_errors 1 ["A"; "B"; "C"] chain_parents = Ret ["A"; "B"; "C"].
Proof.
  exact (order_keeps_ordered_list 0 ["A"; "B"; "C"] chain_parents
           abc_NoDup abc_defined abc_parents_first).
Defined.

(** X3: ordering is idempotent: the list it returns passes validation
    and is returned unchanged when ordered again (any positive number
    of passes allowed). *)
Theorem order_idempotent fuel fuel' i_errors i_parents out :
  order_inherited_errors fuel i_errors i_parents = Ret out →
  check_error_inheritance out i_parents = Ret ([], true) ∧
  order_inherited_errors (S fuel') out i_parents = Ret out.
Proof.
  intros Hret. destruct (order_partial _ _ _ _ Hret) as [Hperm Hpf].
  destruct (order_returns_facts _ _ _ _ Hret) as [Hdef [Hres [_ Hcase]]].
  assert (Hdef' : defined_on out i_parents).
  { intros e He. apply Hdef. by rewrite <- Hperm. }
  split.
  - apply check_passes_iff. split; [done|].
    intros e p [He Hp]. rewrite Hperm in He |- *. by apply (Hres e).
  - destruct Hcase as [[-> Hno]|[Hnd _]].
    + unfold order_inherited_errors. by rewrite Hno.
    + by apply order_ordered.
Qed.

Lemma order_idempotent_witness :
  check_error_inheritance ["A"; "B"; "C"] chain_parents = Ret ([], true) ∧
  order_inherited_errors 1 ["A"; "B"; "C"] chain_parents = Ret ["A"; "B"; "C"].
Proof.
  exact (order_idempotent 3 0 chain_errors chain_parents ["A"; "B"; "C"] eq_refl).
Defined.

Section RootOrder.

Variable i_parents : gmap string (option string).

Lemma has_no_parent_ready out e :
  has_no_parent i_parents e = true → ready i_parents out e.
Proof.
  unfold has_no_parent. destruct (i_parents !! e) as [v|] eqn:Hv; [|done].
  intros Hn. exists v. split; [done|]. left. by apply negb_true_iff.
Qed.

(** The first pass appends the errors without parent in their order. *)
Lemma scan_roots todo : ∀ out out',
  scan i_parents todo out = Ret out' →
  NoDup todo → (∀ e, e ∈ todo → e ∉ out) →
  List.filter (has_no_parent i_parents) out'
  = List.filter (has_no_parent i_parents) out
    ++ List.filter (has_no_parent i_parents) todo.
Proof.
  induction todo as [|x todo IH]; intros out out' Hscan Hnd Hdis;
    simpl in Hscan.
  { injection Hscan as <-. simpl. by rewrite app_nil_r. }
  apply NoDup_cons in Hnd as [Hx Hnd].
  assert (Hc : contains out x = false) by (apply contains_false, Hdis; left).
  rewrite Hc in Hscan.
  apply bind_Ret in Hscan as [v [Hv Hscan]]. apply subscript_Ret in Hv.
  cbn [List.filter]. unfold has_no_parent at 3. rewrite Hv.
  destruct (negb (truthy v) || contains_val out v) eqn:Hgo.
  - rewrite (IH _ _ Hscan Hnd).
    + rewrite List.filter_app. cbn [List.filter]. unfold has_no_parent at 2.
      rewrite Hv. rewrite <- app_assoc. by destruct (negb (truthy v)).
    + intros e He Hin. apply elem_of_app in Hin as [Hin|Hin].
      * apply (Hdis e); [by right|done].
      * apply list_elem_of_singleton in Hin as ->. done.
  - apply orb_false_iff in Hgo as [-> _].
    apply (IH _ _ Hscan Hnd). intros e He. apply Hdis. by right.
Qed.

(** A pass over a list whose errors without parent are all in appends
    no such error. *)
Lemma scan_no_new_roots todo out out' :
  scan i_parents todo out = Ret out' →
  (∀ e, e ∈ todo → has_no_parent i_parents e = true → e ∈ out) →
  List.filter (has_no_parent i_parents) out'
  = List.filter (has_no_parent i_parents) out.
Proof.
  intros Hscan Hin.
  destruct (scan_inv _ _ _ _ Hscan) as [[added [-> Hadd]] _].
  rewrite List.filter_app.
  assert (Hnone : List.filter (has_no_parent i_parents) added = []).
  { clear Hscan. induction added as [|a added IH]; [done|].
    cbn [List.filter]. destruct (has_no_parent i_parents a) eqn:Ha.
    - destruct (Hadd a) as [Ht Hn]; [left|]. by destruct (Hn (Hin a Ht Ha)).
    - apply IH. intros b Hb. apply Hadd. by right. }
  by rewrite Hnone, app_nil_r.
Qed.

Lemma order_loop_no_new_roots i_errors fuel : ∀ out out',
  order_loop fuel i_parents i_errors out = Ret out' →
  (∀ e, e ∈ i_errors → has_no_parent i_parents e = true → e ∈ out) →
  List.filter (has_no_parent i_parents) out'
  = List.filter (has_no_parent i_parents) out.
Proof.
  induction fuel as [|fuel IH]; intros out out' Hloop Hin; simpl in Hloop;
    destruct (Nat.ltb (length out) (length i_errors)); try discriminate;
    try (by injection Hloop as <-).
  apply bind_Ret in Hloop as [out1 [Hscan Hloop]].
  rewrite (IH _ _ Hloop).
  - by apply (scan_no_new_roots i_errors).
  - intros e He Hroot.
    destruct (scan_inv _ _ _ _ Hscan) as [[added [-> _]] _].
    apply elem_of_app. left. by apply Hin.
Qed.

End RootOrder.

(** X4: the errors without a parent (entry [None] or the empty string)
    keep their declaration order in the returned list. *)
Theorem order_keeps_root_order fuel i_errors i_parents out :
  order_inherited_errors fuel i_errors i_parents = Ret out →
  List.filter (has_no_parent i_parents) out
  = List.filter (has_no_parent i_parents) i_errors.
Proof.
  intros Hret. destruct (order_partial _ _ _ _ Hret) as [Hperm _].
  destruct (order_returns_facts _ _ _ _ Hret) as [_ [_ [_ Hcase]]].
  destruct Hcase as [[-> _]|[Hnd Hinh]]; [done|].
  assert (Hnd' : NoDup i_errors) by by rewrite <- Hperm.
  unfold order_inherited_errors in Hret. rewrite Hinh in Hret.
  cbn [bind] in Hret. destruct fuel as [|fuel]; simpl in Hret.
  - destruct i_errors; [by injection Hret as <-|discriminate].
  - destruct i_errors as [|e0 l] eqn:Hl; [by injection Hret as <-|].
    rewrite <- Hl in *. replace (Nat.ltb 0 (length i_errors)) with true in Hret
      by (rewrite Hl; done).
    apply bind_Ret in Hret as [out1 [Hscan Hloop]].
    rewrite (order_loop_no_new_roots i_parents i_errors fuel out1 out Hloop).
    + rewrite (scan_roots i_parents i_errors [] out1 Hscan Hnd'); [done|].
      intros e _ Hin. by apply elem_of_nil in Hin.
    + intros e He Hroot.
      destruct (scan_inv _ _ _ _ Hscan) as [_ [_ [_ Hprog]]].
      apply Hprog; [done|]. by apply has_no_parent_ready.
Qed.

Lemma order_keeps_root_order_witness :
  List.filter (has_no_parent mixed_parents) ["Y"; "A"; "X"; "B"]
  = List.filter (has_no_parent mixed_parents) mixed_errors ∧
  List.filter (has_no_parent mixed_parents) mixed_errors = ["Y"; "A"; "X"].
Proof.
  split; [|reflexivity].
  exact (order_keeps_root_order 2 mixed_errors mixed_parents
           ["Y"; "A"; "X"; "B"] eq_refl).
Defined.

(** * Further properties of the run *)

Lemma check_from_total i_errors i_parents todo :
  defined_on todo i_parents →
  ∃ msgs verdict, check_from i_errors i_parents todo = Ret (msgs, verdict).
Proof.
  induction todo as [|e todo IH]; intros Hdef; [by eexists _, _|].
  simpl. destruct (Hdef e) as [v Hv]; [left|]. unfold subscript. rewrite Hv.
  simpl. assert (Hrest : defined_on todo i_parents).
  { intros x Hx. apply Hdef. by right. }
  destruct v as [p|]; [|by apply IH].
  destruct (truthy (Some p) && negb (contains i_errors p));
    [by eexists _, _|by apply IH].
Qed.

Section RunMore.

Variable str_of_record : error_record → string.
Variable fs : filesystem.

(** X5: documents are loaded into a model in which every error has a
    parent entry, however the loading ends; so the validation that
    follows returns a verdict and never fails on a missing key. *)
Theorem loaded_model_is_checked i_template_dir i_elog_mako error_yamls w :
  covered (model w) →
  ∃ msgs verdict,
    check_error_inheritance
      (errors (model (for_each error_yamls
                        (load_error_yaml str_of_record fs i_template_dir
                           i_elog_mako) w).2))
      (parents (model (for_each error_yamls
                         (load_error_yaml str_of_record fs i_template_dir
                            i_elog_mako) w).2))
    = Ret (msgs, verdict).
Proof.
  intros Hcov. apply check_from_total.
  by apply (loaded_model_covered str_of_record fs).
Qed.



(** X7: a run over no error document at all does not write an empty
    header: validation and ordering of the empty list succeed, and the
    template path, assigned only inside the loop over the documents, is
    then read unassigned. *)
Theorem gen_elog_hpp_no_documents fuel i_output_hpp i_template_dir
    i_elog_mako w :
  errors (model w) = [] →
  gen_elog_hpp str_of_record fuel fs [] i_output_hpp i_template_dir
    i_elog_mako w
  = (Raise (NameError "template_path"), w).
Proof.
  intros Hempty. destruct w as [so d fl]. simpl in Hempty.
  unfold gen_elog_hpp, validate_order_render, mbind, get_model, lift.
  simpl. rewrite Hempty. simpl. by rewrite app_nil_r.
Qed.

(** X8: the template is looked for inside the loop, after the first
    document: with a missing template and at least one document the
    run exits with status 1 before anything is loaded, naming the
    first document when that is missing too and the template
    otherwise. *)
Theorem gen_elog_hpp_missing_template fuel error_yaml i_namespace error_yamls
    i_output_hpp i_template_dir i_elog_mako w :
  isfile fs (i_template_dir +:+ "/" +:+ i_elog_mako) = false →
  gen_elog_hpp str_of_record fuel fs ((error_yaml, i_namespace) :: error_yamls)
    i_output_hpp i_template_dir i_elog_mako w
  = (Raise (SystemExit 1),
     World (stdout w ++
              [if isfile fs error_yaml
               then "Cannot find input template file "
                    +:+ i_template_dir +:+ "/" +:+ i_elog_mako
               else "Cannot find input yaml file " +:+ error_yaml])
           (model w) (files w)).
Proof.
  intros Htemplate.
  unfold gen_elog_hpp, mbind. cbn [for_each]. unfold mbind, load_error_yaml.
  cbn [fst snd]. unfold template_path_of. rewrite Htemplate.
  by destruct (isfile fs error_yaml).
Qed.

End RunMore.

Lemma loaded_model_is_checked_witness :
  ∃ msgs verdict,
    check_error_inheritance
      (errors (model (for_each [("xyz/Foo.errors.yaml", "xyz/Foo")]
                        (load_error_yaml (λ _, "{}") other_fs "templates"
                           "elog.mako.hpp") initial_world).2))
      (parents (model (for_each [("xyz/Foo.errors.yaml", "xyz/Foo")]
                         (load_error_yaml (λ _, "{}") other_fs "templates"
                            "elog.mako.hpp") initial_world).2))
    = Ret (msgs, verdict).
Proof.
  apply (loaded_model_is_checked (λ _, "{}") other_fs).
  intros e He. by apply elem_of_nil in He.
Defined.

Lemma gen_elog_hpp_no_documents_witness :
  gen_elog_hpp (λ _, "{}") 0 lone_fs [] "elog-errors.hpp" "templates"
    "elog.mako.hpp" initial_world
  = (Raise (NameError "template_path"), initial_world).
Proof.
  exact (gen_elog_hpp_no_documents (λ _, "{}") lone_fs 0 "elog-errors.hpp"
           "templates" "elog.mako.hpp" initial_world eq_refl).
Defined.

Lemma gen_elog_hpp_missing_template_witness :
  gen_elog_hpp (λ _, "{}") 0 lone_fs [("xyz/Foo.errors.yaml", "xyz/Foo")]
    "elog-errors.hpp" "nowhere" "elog.mako.hpp" initial_world
  = (Raise (SystemExit 1),
     World ["Cannot find input template file nowhere/elog.mako.hpp"]
           empty_data []).
Proof.
  exact (gen_elog_hpp_missing_template (λ _, "{}") lone_fs 0
           "xyz/Foo.errors.yaml" "xyz/Foo" [] "elog-errors.hpp" "nowhere"
           "elog.mako.hpp" initial_world eq_refl).
Defined.

(** * Further properties of the loader *)

Lemma get_cpp_type_cases i_type :
  (i_type ∈ known_types ∧ ∃ cpp, get_cpp_type i_type = Ret cpp) ∨
  ((i_type ∉ known_types) ∧ get_cpp_type i_type = Raise (KeyError i_type)).
Proof.
  destruct (decide (i_type ∈ known_types)) as [Hin|Hout].
  - left. split; [done|]. unfold known_types in Hin.
    repeat (apply elem_of_cons in Hin as [->|Hin]); try (by eexists).
    by apply elem_of_nil in Hin.
  - right. split; [done|]. unfold get_cpp_type, subscript, typeMap.
    unfold known_types in Hout.
    repeat (apply not_elem_of_cons in Hout as [? Hout]).
    by rewrite !lookup_insert_ne, lookup_empty by done.
Qed.

Lemma outside_fields_refl d : outside_fields d d.
Proof. by repeat split. Qed.

Lemma outside_fields_trans d1 d2 d3 :
  outside_fields d1 d2 → outside_fields d2 d3 → outside_fields d1 d3.
Proof.
  intros [? [? [? [? ?]]]] [? [? [? [? ?]]]]. repeat split; congruence.
Qed.

(** One metadata field touches the field map and the process index
    only, and fails exactly on a type tag that is no key of [typeMap]. *)
Lemma load_meta_field_cases fullname i w :
  stdout (load_meta_field fullname i w).2 = stdout w ∧
  files (load_meta_field fullname i w).2 = files w ∧
  outside_fields (model w) (model (load_meta_field fullname i w).2) ∧
  (mf_type i ∈ known_types ∧
   (load_meta_field fullname i w).1 = Ret (short_name (mf_str i)) ∨
   (mf_type i ∉ known_types) ∧
   (load_meta_field fullname i w).1 = Raise (KeyError (mf_type i))).
Proof.
  unfold load_meta_field, mbind, update, lift, ret. simpl.
  destruct (get_cpp_type_cases (mf_type i)) as [[Hin [cpp ->]]|[Hout ->]].
  - destruct (mf_process i) as [[|]|]; simpl; repeat split; auto.
  - simpl. repeat split; auto.
Qed.

Section FieldsMore.

Variable fullname : string.

Lemma load_meta_fields_frame fields : ∀ tmp_meta w,
  stdout (load_meta_fields fullname fields tmp_meta w).2 = stdout w ∧
  files (load_meta_fields fullname fields tmp_meta w).2 = files w ∧
  outside_fields (model w)
    (model (load_meta_fields fullname fields tmp_meta w).2).
Proof.
  induction fields as [|i fields IH]; intros tmp_meta w.
  { simpl. split; [done|]. split; [done|]. apply outside_fields_refl. }
  simpl. unfold mbind.
  destruct (load_meta_field_cases fullname i w) as [Hso [Hfl [Hout _]]].
  destruct (load_meta_field fullname i w) as [[s| |] w1]; simpl in *; try done.
  destruct (IH (tmp_meta ++ [s]) w1) as [Hso' [Hfl' Hout']].
  split; [congruence|]. split; [congruence|].
  by apply (outside_fields_trans _ (model w1)).
Qed.

Lemma load_meta_fields_outcome fields tmp_meta w :
  match (load_meta_fields fullname fields tmp_meta w).1 with
  | Ret l =>
      l = tmp_meta ++ short_names fields ∧
      Forall (λ i, mf_type i ∈ known_types) fields
  | Raise e =>
      ∃ pre i post, fields = pre ++ i :: post ∧
        Forall (λ i, mf_type i ∈ known_types) pre ∧
        (mf_type i ∉ known_types) ∧ e = KeyError (mf_type i)
  | NoFuel => False
  end.
Proof.
  revert tmp_meta w. induction fields as [|i fields IH]; intros tmp_meta w.
  { simpl. by rewrite app_nil_r. }
  simpl. unfold mbind.
  destruct (load_meta_field_cases fullname i w) as [_ [_ [_ Hcase]]].
  destruct (load_meta_field fullname i w) as [r w1]. simpl in Hcase.
  destruct Hcase as [[Hin ->]|[Hout ->]].
  - specialize (IH (tmp_meta ++ [short_name (mf_str i)]) w1).
    destruct (load_meta_fields fullname fields _ w1) as [[l|e|] w2];
      simpl in *; [| |done].
    + destruct IH as [-> Hall]. split; [by rewrite <- app_assoc|].
      by constructor.
    + destruct IH as [pre [j [post [-> [Hpre [Hj ->]]]]]].
      exists (i :: pre), j, post. repeat split; try done. by constructor.
  - simpl. exists [], i, fields. by repeat split.
Qed.

(** X9: the loop over the metadata fields of an entry returns the
    short identifiers in the order of the fields when every type tag
    is a key of the type table; otherwise it raises [KeyError] with the
    first tag that is not. *)
Theorem load_meta_fields_result fields tmp_meta w :
  match (load_meta_fields fullname fields tmp_meta w).1 with
  | Ret l =>
      l = tmp_meta ++ short_names fields ∧
      Forall (λ i, mf_type i ∈ known_types) fields
  | Raise e =>
      ∃ pre i post, fields = pre ++ i :: post ∧
        Forall (λ i, mf_type i ∈ known_types) pre ∧
        (mf_type i ∉ known_types) ∧ e = KeyError (mf_type i)
  | NoFuel => False
  end.
Proof. apply load_meta_fields_outcome. Qed.

End FieldsMore.

Section EntryMore.

Variable fullname : string.
Variable match_ : meta_entry.

(** X10: when the metadata entry of an error loads, the error has its
    severity (the entry's level, [ERR] without one), its parent (the
    first name of [inherits], or the entry it had without one) and a
    metadata list holding the short identifiers of the entry's fields
    in order, the empty list when the entry has none. *)
Theorem load_match_sets_entries w w' :
  load_match fullname match_ w = (Ret tt, w') →
  error_lvl (model w') !! fullname = Some (default "ERR" (me_level match_)) ∧
  parents (model w') !! fullname
  = match me_inherits match_ with
    | Some (parent :: _) => Some (Some parent)
    | _ => parents (model w) !! fullname
    end ∧
  me_inherits match_ ≠ Some [] ∧
  meta (model w') !! fullname
  = Some (short_names (default [] (me_meta match_))) ∧
  errors (model w') = errors (model w) ∧
  stdout w' = stdout w ∧ files w' = files w.
Proof.
  unfold load_match, mbind, update. cbn [fst snd].
  assert (Hlast : ∀ w2 fields,
    match (load_meta_fields fullname fields [] w2).1 with
    | Ret l => l = short_names fields
    | _ => True
    end).
  { intros w2 fields.
    pose proof (load_meta_fields_outcome fullname fields [] w2) as Hres.
    destruct (load_meta_fields fullname fields [] w2).1; [|done|done].
    by destruct Hres as [-> _]. }
  destruct (me_inherits match_) as [[|parent others]|] eqn:Hinh;
    cbn [raise ret]; [discriminate| |].
  - destruct (me_meta match_) as [fields|] eqn:Hmeta; cbn [ret default].
    + match goal with |- context [load_meta_fields fullname fields [] ?w2] =>
        destruct (load_meta_fields_frame fullname fields [] w2)
          as [Hso [Hfl Hout]];
        pose proof (Hlast w2 fields) as Hl;
        destruct (load_meta_fields fullname fields [] w2) as [[l|e|] w3]
      end; try discriminate.
      intros [= <-]. simpl in *. subst l.
      destruct Hout as [He [_ [Hlvl [_ Hpar]]]].
      rewrite Hlvl, Hpar, He, Hso, Hfl. simpl.
      by rewrite !lookup_insert_eq.
    + intros [= <-]. simpl. by rewrite !lookup_insert_eq.
  - destruct (me_meta match_) as [fields|] eqn:Hmeta; cbn [ret default].
    + match goal with |- context [load_meta_fields fullname fields [] ?w2] =>
        destruct (load_meta_fields_frame fullname fields [] w2)
          as [Hso [Hfl Hout]];
        pose proof (Hlast w2 fields) as Hl;
        destruct (load_meta_fields fullname fields [] w2) as [[l|e|] w3]
      end; try discriminate.
      intros [= <-]. simpl in *. subst l.
      destruct Hout as [He [_ [Hlvl [_ Hpar]]]].
      rewrite Hlvl, Hpar, He, Hso, Hfl. simpl.
      by rewrite !lookup_insert_eq.
    + intros [= <-]. simpl. by rewrite !lookup_insert_eq.
Qed.

(** An entry that cannot be loaded makes the loading raise, whatever
    the state. *)
Lemma load_match_unloadable w :
  unloadable match_ → ∃ e, (load_match fullname match_ w).1 = Raise e.
Proof.
  intros Hbad. unfold load_match, mbind, update. cbn [fst snd].
  destruct (me_inherits match_) as [[|parent others]|] eqn:Hinh;
    cbn [raise ret]; [by eexists| |];
    (destruct Hbad as [Hnil|[fields [i [Hmeta [Hi Hout]]]]]; [congruence|]);
    rewrite Hmeta;
    match goal with |- context [load_meta_fields fullname fields [] ?w2] =>
      pose proof (load_meta_fields_outcome fullname fields [] w2) as Hres;
      destruct (load_meta_fields fullname fields [] w2) as [[l|e|] w3]
    end; simpl in *; try done; try (by eexists);
    destruct Hres as [_ Hall]; rewrite Forall_forall in Hall;
    by destruct (Hout (Hall i Hi)).
Qed.

End EntryMore.

Lemma load_match_sets_entries_witness :
  let match_ :=
    MetaEntry "Bar" None (Some ["xyz.Foo.Base"; "xyz.Foo.Other"])
      (Some [MetaField "ERRNO=%d" "int32" (Some true);
             MetaField "FILE_NAME=%s" "string" None]) in
  let w' := (load_match "xyz.Foo.Bar" match_ initial_world).2 in
  error_lvl (model w') !! "xyz.Foo.Bar" = Some "ERR" ∧
  parents (model w') !! "xyz.Foo.Bar" = Some (Some "xyz.Foo.Base") ∧
  meta (model w') !! "xyz.Foo.Bar" = Some ["ERRNO"; "FILE_NAME"].
Proof.
  intros match_ w'.
  destruct (load_match_sets_entries "xyz.Foo.Bar" match_ initial_world w'
              eq_refl) as [Hlvl [Hpar [_ [Hmeta _]]]].
  split; [exact Hlvl|]. split; [exact Hpar|exact Hmeta].
Defined.

Section DocumentMore.

Variable str_of_record : error_record → string.
Variable fs : filesystem.

(** A record whose metadata entry cannot be loaded makes the loading
    raise, whatever the state. *)
Lemma load_error_unloadable i_elog_yaml i_elog_meta_yaml i_namespace
    error name match_ w :
  er_name error = Some name →
  isfile fs i_elog_meta_yaml = true →
  find_match name (load_meta fs i_elog_meta_yaml) = Some match_ →
  unloadable match_ →
  ∃ e, (load_error str_of_record fs i_elog_yaml i_elog_meta_yaml i_namespace
          error w).1 = Raise e.
Proof.
  intros Hname Hfile Hfind Hbad. unfold load_error. rewrite Hname.
  destruct (er_description error);
    cbv [mbind update ret]; unfold load_metadata; rewrite Hfile, Hfind;
    cbn [negb];
    match goal with |- context [load_match ?fn match_ ?w1] =>
      destruct (load_match_unloadable fn match_ w1 Hbad) as [e He];
      destruct (load_match fn match_ w1) as [r w2]; simpl in He; subst r
    end; by exists e.
Qed.

(** X11: a document with an error whose metadata entry has an empty
    [inherits] list, or a field with a type tag that is no key of the
    type table, ends the run: it raises, and no file is written. *)
Theorem unloadable_metadata_aborts fuel error_yamls error_yaml i_namespace
    error name match_ i_output_hpp i_template_dir i_elog_mako w :
  (error_yaml, i_namespace) ∈ error_yamls →
  error ∈ load_errors fs error_yaml →
  er_name error = Some name →
  isfile fs (get_meta_yaml_file error_yaml) = true →
  find_match name (load_meta fs (get_meta_yaml_file error_yaml))
  = Some match_ →
  unloadable match_ →
  ∃ e w',
    gen_elog_hpp str_of_record fuel fs error_yamls i_output_hpp
      i_template_dir i_elog_mako w = (Raise e, w') ∧
    files w' = files w.
Proof.
  intros Hyaml Herror Hname Hfile Hfind Hbad.
  unfold gen_elog_hpp, mbind.
  destruct (for_each_aborts error_yamls
              (load_error_yaml str_of_record fs i_template_dir i_elog_mako)
              (error_yaml, i_namespace) Hyaml
              ltac:(intros; apply quiet_load_error_yaml)) with (w := w)
    as [e [w' [Hrun Hfiles]]].
  - intros w0. unfold load_error_yaml. cbn [fst snd].
    destruct (negb (isfile fs error_yaml)); [by eexists|].
    destruct (negb (isfile fs _)); [by eexists|].
    destruct (for_each_aborts (load_errors fs error_yaml)
                (load_error str_of_record fs error_yaml
                   (get_meta_yaml_file error_yaml) i_namespace)
                error Herror ltac:(intros; apply quiet_load_error))
      with (w := w0) as [e [w' [Hrun _]]].
    + intros w1. by apply (load_error_unloadable _ _ _ _ name match_).
    + exists e. unfold get_elog_data. by rewrite Hrun.
  - rewrite Hrun. by exists e, w'.
Qed.

(** X12: when the loading of a document returns, every record of it
    has a name, and the error list has grown by the full names of the
    records, one per record in document order (a name met twice is
    there twice); nothing was written. *)
Theorem get_elog_data_appends i_elog_yaml i_elog_meta_yaml i_namespace w w' :
  get_elog_data str_of_record fs i_elog_yaml i_elog_meta_yaml i_namespace w
  = (Ret tt, w') →
  Forall (λ error, is_Some (er_name error)) (load_errors fs i_elog_yaml) ∧
  errors (model w')
  = errors (model w) ++ full_names i_namespace (load_errors fs i_elog_yaml) ∧
  length (errors (model w'))
  = length (errors (model w)) + length (load_errors fs i_elog_yaml) ∧
  files w' = files w.
Proof.
  unfold get_elog_data. generalize (load_errors fs i_elog_yaml) as records.
  intros records. revert w.
  induction records as [|error records IH]; intros w Hrun.
  { injection Hrun as <-. simpl. rewrite app_nil_r. repeat split; auto. }
  simpl in Hrun. unfold mbind in Hrun.
  pose proof (load_error_errors str_of_record fs i_elog_yaml i_elog_meta_yaml
                i_namespace error w) as Hone.
  destruct (quiet_load_error str_of_record fs i_elog_yaml i_elog_meta_yaml
              i_namespace error w) as [Hfl _].
  assert (Hnamed : is_Some (er_name error)).
  { destruct (er_name error) eqn:Hname; [by eexists|].
    rewrite load_error_nameless in Hrun by done. discriminate. }
  destruct (load_error _ _ _ _ _ error w) as [[[]|e|] w1]; try discriminate.
  simpl in Hone, Hfl. destruct (IH w1 Hrun) as [Hall [Herr [Hlen Hfiles]]].
  destruct Hnamed as [name Hname].
  assert (Hfull : full_names i_namespace (error :: records)
                  = full_name i_namespace name
                    :: full_names i_namespace records).
  { unfold full_names. simpl. by rewrite Hname. }
  unfold full_names in Hone. simpl in Hone. rewrite Hname in Hone.
  simpl in Hone. split; [constructor; [by eexists|done]|].
  split; [|split].
  - rewrite Herr, Hone, Hfull, <- app_assoc. done.
  - rewrite Hlen, Hone, length_app. simpl. lia.
  - congruence.
Qed.

End DocumentMore.

Lemma unloadable_metadata_aborts_witness :
  ∃ e w',
    gen_elog_hpp (λ _, "{}") 0 float_fs [("xyz/Foo.errors.yaml", "xyz/Foo")]
      "elog-errors.hpp" "templates" "elog.mako.hpp" initial_world
    = (Raise e, w') ∧
    files w' = files initial_world.
Proof.
  apply (unloadable_metadata_aborts (λ _, "{}") float_fs 0
           [("xyz/Foo.errors.yaml", "xyz/Foo")] "xyz/Foo.errors.yaml"
           "xyz/Foo" (ErrorRecord (Some "Bar") None) "Bar"
           (MetaEntry "Bar" (Some "INFO") (Some ["xyz.Foo.Base"])
              (Some [MetaField "ERRNO=%d" "int32" (Some true);
                     MetaField "RATIO=%f" "float" None]))).
  - left.
  - cbn. left.
  - reflexivity.
  - reflexivity.
  - reflexivity.
  - right. eexists _, (MetaField "RATIO=%f" "float" None).
    split; [reflexivity|]. split; [right; left|].
    intros Hin. unfold known_types in Hin.
    repeat (apply elem_of_cons in Hin as [Hin|Hin]; [discriminate|]).
    by apply elem_of_nil in Hin.
Defined.

Lemma get_elog_data_appends_witness :
  let w' := (get_elog_data (λ _, "{}") full_fs "xyz/Foo.errors.yaml"
               "xyz/Foo.metadata.yaml" "xyz/Foo" initial_world).2 in
  errors (model w') = ["xyz.Foo.Bar"] ∧ files w' = [].
Proof.
  intros w'.
  destruct (get_elog_data_appends (λ _, "{}") full_fs "xyz/Foo.errors.yaml"
              "xyz/Foo.metadata.yaml" "xyz/Foo" initial_world w' eq_refl)
    as [_ [Herr [_ Hfiles]]].
  split; [exact Herr|exact Hfiles].
Defined.

(** * Further properties of the type table and the metadata path *)

(** X13: the type table loses nothing: two tags with the same output
    name are the same tag. *)
Theorem get_cpp_type_injective i_type i_type' cpp :
  get_cpp_type i_type = Ret cpp → get_cpp_type i_type' = Ret cpp →
  i_type = i_type'.
Proof.
  intros H1 H2.
  destruct (get_cpp_type_cases i_type) as [[Hin _]|[_ Hr]]; [|congruence].
  destruct (get_cpp_type_cases i_type') as [[Hin' _]|[_ Hr]]; [|congruence].
  unfold known_types in Hin, Hin'.
  repeat (apply elem_of_cons in Hin as [->|Hin]);
    try (by apply elem_of_nil in Hin);
    vm_compute in H1; injection H1 as <-;
    repeat (apply elem_of_cons in Hin' as [->|Hin']);
    try (by apply elem_of_nil in Hin'); try reflexivity;
    vm_compute in H2; discriminate.
Qed.

Lemma get_cpp_type_injective_witness : "uint64" = "uint64".
Proof.
  exact (get_cpp_type_injective "uint64" "uint64" "uint64_t" eq_refl eq_refl).
Defined.

Lemma prefix_length old : ∀ s,
  String.prefix old s = true → String.length old ≤ String.length s.
Proof.
  induction old as [|c old IH]; intros s Hp; simpl; [lia|].
  destruct s as [|d s]; [done|]. rewrite prefix_cons in Hp.
  destruct (ascii_dec c d); [|done]. specialize (IH s Hp). simpl. lia.
Qed.

(** A word without the character [sep] does not start where [sep]
    comes too early. *)
Lemma prefix_blocked sep old : ∀ x rest,
  occurs_nowhere (String sep "") old = true →
  String.length x < String.length old →
  String.prefix old (x +:+ String sep rest) = false.
Proof.
  induction old as [|c old IH]; intros x rest Hno Hlen; simpl in Hlen; [lia|].
  cbn [occurs_nowhere] in Hno. apply andb_true_iff in Hno as [Hc Hno].
  destruct x as [|d x].
  - change ("" +:+ String sep rest) with (String sep rest).
    rewrite prefix_cons. destruct (ascii_dec c sep) as [->|]; [|done].
    rewrite prefix_cons in Hc. destruct (ascii_dec sep sep); [|done].
    by destruct old.
  - change (String d x +:+ String sep rest)
      with (String d (x +:+ String sep rest)).
    rewrite prefix_cons. destruct (ascii_dec c d); [|done].
    apply IH; [done|]. simpl in Hlen. lia.
Qed.

(** Replacement goes through the part before a character that is not
    in the word and then starts afresh. *)
Lemma replace_from_before sep old new rest :
  occurs_nowhere (String sep "") old = true → old ≠ "" →
  ∀ stem skip, skip ≤ String.length stem →
    replace_from old new skip (stem +:+ String sep rest)
    = replace_from old new skip stem
      +:+ String sep (replace_from old new 0 rest).
Proof.
  intros Hno Hne. induction stem as [|c stem IH]; intros skip Hskip.
  - simpl in Hskip. assert (skip = 0) as -> by lia.
    change ("" +:+ String sep rest) with (String sep rest).
    cbn [replace_from].
    replace (String.prefix old (String sep rest)) with false; [done|].
    symmetry. apply (prefix_blocked sep old "" rest Hno).
    destruct old; [done|simpl; lia].
  - change (String c stem +:+ String sep rest)
      with (String c (stem +:+ String sep rest)).
    cbn [replace_from]. destruct skip as [|k].
    + change (String c (stem +:+ String sep rest))
        with (String c stem +:+ String sep rest).
      destruct (decide (String.length old ≤ String.length (String c stem)))
        as [Hlong|Hshort].
      * rewrite prefix_append_long by done.
        destruct (String.prefix old (String c stem)) eqn:Hp.
        -- rewrite append_assoc. f_equal. apply IH.
           apply prefix_length in Hp. simpl in Hp. lia.
        -- change (String c (replace_from old new 0 stem)
                     +:+ String sep (replace_from old new 0 rest))
             with (String c (replace_from old new 0 stem
                     +:+ String sep (replace_from old new 0 rest))).
           f_equal. apply IH. lia.
      * rewrite prefix_blocked by (done || lia).
        destruct (String.prefix old (String c stem)) eqn:Hp.
        { apply prefix_length in Hp. lia. }
        change (String c (replace_from old new 0 stem)
                  +:+ String sep (replace_from old new 0 rest))
          with (String c (replace_from old new 0 stem
                  +:+ String sep (replace_from old new 0 rest))).
        f_equal. apply IH. lia.
    + apply IH. simpl in Hskip. lia.
Qed.

(** X14: the metadata path is computed component by component, and an
    error-document path ending in [.errors.yaml] gives a metadata path
    ending in [.metadata.yaml]. *)
Theorem get_meta_yaml_file_by_component :
  (∀ dir file,
     get_meta_yaml_file (dir +:+ "/" +:+ file)
     = get_meta_yaml_file dir +:+ "/" +:+ get_meta_yaml_file file) ∧
  (∀ stem,
     get_meta_yaml_file (stem +:+ ".errors.yaml")
     = get_meta_yaml_file stem +:+ ".metadata.yaml").
Proof.
  split.
  - intros dir file. unfold get_meta_yaml_file, replace.
    apply (replace_from_before "/" "errors" "metadata" file);
      [reflexivity|discriminate|lia].
  - intros stem. unfold get_meta_yaml_file, replace.
    apply (replace_from_before "." "errors" "metadata" "errors.yaml");
      [reflexivity|discriminate|lia].
Qed.

(** * get_error_yaml_files *)

Example get_error_yaml_files_example :
  get_error_yaml_files example_walk "yaml" "./tools/example/"
  = inr [("yaml/Top.errors.yaml", "Top");
         ("yaml/xyz/openbmc_project/Error/Callout/Device.errors.yaml",
          "xyz/openbmc_project/Error/Callout/Device");
         ("./tools/example/Lone.errors.yaml", "/Lone");
         ("./tools/example/xyz/openbmc_project/Example/Elog.errors.yaml",
          "xyz/openbmc_project/Example/Elog")].
Proof. reflexivity. Qed.

Lemma endswith_whole s : endswith s s = true.
Proof. destruct s; cbn [endswith]; by rewrite String.eqb_refl. Qed.

Lemma endswith_append a b suffix :
  endswith b suffix = true → endswith (a +:+ b) suffix = true.
Proof.
  intros Hb. induction a as [|c a IH]; [done|].
  change (String c a +:+ b) with (String c (a +:+ b)).
  cbn [endswith]. by rewrite IH, orb_true_r.
Qed.

Lemma endswith_split s suffix :
  endswith s suffix = true → ∃ stem, s = stem +:+ suffix.
Proof.
  induction s as [|c s IH]; cbn [endswith]; intros H.
  - rewrite orb_false_r in H. apply String.eqb_eq in H as <-. by exists "".
  - apply orb_true_iff in H as [H|H].
    + apply String.eqb_eq in H as <-. by exists "".
    + destruct (IH H) as [stem ->]. by exists (String c stem).
Qed.

Lemma path_join_endswith root file suffix :
  endswith file suffix = true → endswith (path_join root file) suffix = true.
Proof.
  intros Hfile. unfold path_join. destruct (String.prefix "/" file); [done|].
  destruct (String.eqb root "" || endswith root "/").
  - by apply endswith_append.
  - apply endswith_append. by apply (endswith_append "/").
Qed.

(** Assigning to a key of the dictionary adds the key at the end when
    it is new and keeps the keys otherwise. *)
Lemma dict_set_keys k v d :
  (dict_set k v d).*1 = if decide (k ∈ d.*1) then d.*1 else d.*1 ++ [k].
Proof.
  induction d as [|[k' v'] d IH]; csimpl.
  { done. }
  destruct (String.eqb_spec k' k) as [->|Hne]; csimpl.
  - clear IH. case_decide as Hn; [done|]. destruct Hn. left.
  - rewrite IH. clear IH. repeat case_decide; try done.
    + match goal with H : k ∉ k' :: _ |- _ => destruct H; by right end.
    + match goal with H : k ∈ k' :: _ |- _ =>
        apply elem_of_cons in H as [->|]; done end.
Qed.

Lemma dict_set_lookup k v d : (k, v) ∈ dict_set k v d.
Proof.
  induction d as [|[k' v'] d IH]; simpl; [left|].
  destruct (String.eqb k' k); [left|by right].
Qed.

Lemma document_paths_set k v d :
  endswith k ".errors.yaml" = true →
  document_paths d → document_paths (dict_set k v d).
Proof.
  intros Hk [Hnd Hall]. unfold document_paths. rewrite dict_set_keys.
  destruct (decide (k ∈ d.*1)) as [Hin|Hout]; [done|]. split.
  - apply NoDup_app. split; [done|]. split; [|apply NoDup_singleton].
    intros x Hx Hxk. apply list_elem_of_singleton in Hxk as ->. done.
  - intros path Hpath. apply elem_of_app in Hpath as [Hpath|Hpath]; [auto|].
    by apply list_elem_of_singleton in Hpath as ->.
Qed.

Lemma document_paths_add_files strip top root files : ∀ d d',
  add_files strip top root files d = inr d' →
  document_paths d → document_paths d'.
Proof.
  induction files as [|file files IH]; intros d d' Hadd Hd; simpl in Hadd.
  { by injection Hadd as <-. }
  destruct (endswith file ".errors.yaml") eqn:Hfile; [|by apply (IH d)].
  destruct (add_file strip top root file d) as [|d1] eqn:Hone; [done|].
  apply (IH d1); [done|]. unfold add_file in Hone.
  destruct top; [done|]. destruct (split_from _ 0 root).2; [done|].
  injection Hone as <-. apply document_paths_set; [|done].
  by apply path_join_endswith.
Qed.

Lemma document_paths_add_roots strip top found : ∀ d d',
  add_roots strip top found d = inr d' →
  document_paths d → document_paths d'.
Proof.
  induction found as [|[root files] found IH]; intros d d' Hadd Hd;
    simpl in Hadd.
  { by injection Hadd as <-. }
  destruct (add_files strip top root files d) as [|d1] eqn:Hone; [done|].
  apply (IH d1); [done|].
  by apply (document_paths_add_files strip top root files d).
Qed.

(** X15: the dictionary of documents holds pairwise distinct paths,
    each ending in [.errors.yaml], so that the metadata document looked
    for beside each one has a path ending in [.metadata.yaml]. *)
Theorem get_error_yaml_files_paths walk i_yaml_dir i_test_dir yaml_files :
  get_error_yaml_files walk i_yaml_dir i_test_dir = inr yaml_files →
  NoDup yaml_files.*1 ∧
  ∀ path, path ∈ yaml_files.*1 →
    ∃ stem, path = stem +:+ ".errors.yaml" ∧
      get_meta_yaml_file path = get_meta_yaml_file stem +:+ ".metadata.yaml".
Proof.
  intros Hget. unfold get_error_yaml_files in Hget.
  assert (Hpaths : document_paths yaml_files).
  { destruct (String.eqb i_yaml_dir "None").
    - apply (document_paths_add_roots _ _ _ [] _ Hget).
      split; [apply NoDup_nil_2|]. intros path Hp. by apply elem_of_nil in Hp.
    - destruct (add_roots true i_yaml_dir (walk i_yaml_dir) []) as [|d1] eqn:H1;
        [done|].
      apply (document_paths_add_roots _ _ _ d1 _ Hget).
      apply (document_paths_add_roots _ _ _ [] _ H1).
      split; [apply NoDup_nil_2|]. intros path Hp. by apply elem_of_nil in Hp. }
  destruct Hpaths as [Hnd Hall]. split; [done|].
  intros path Hpath. destruct (endswith_split _ _ (Hall path Hpath)) as [stem ->].
  exists stem. split; [done|]. unfold get_meta_yaml_file, replace.
  apply (replace_from_before "." "errors" "metadata" "errors.yaml");
    [reflexivity|discriminate|lia].
Qed.

Lemma get_error_yaml_files_paths_witness :
  NoDup ["yaml/Top.errors.yaml";
         "yaml/xyz/openbmc_project/Error/Callout/Device.errors.yaml";
         "./tools/example/Lone.errors.yaml";
         "./tools/example/xyz/openbmc_project/Example/Elog.errors.yaml"].
Proof.
  exact (proj1 (get_error_yaml_files_paths example_walk "yaml"
                  "./tools/example/" _ eq_refl)).
Defined.

Lemma split_from_skip sep a : ∀ b,
  split_from sep (String.length a) (a +:+ b) = split_from sep 0 b.
Proof. induction a as [|c a IH]; intros b; simpl; [by destruct b|]. apply IH. Qed.

Lemma split_from_none sep s :
  ¬ occurs sep s → split_from sep 0 s = (s, []).
Proof.
  induction s as [|c s IH]; intros Hno; [done|]. cbn [split_from].
  destruct (String.prefix sep (String c s)) eqn:Hp.
  - exfalso. by apply Hno, occurs_prefix.
  - rewrite IH; [done|]. intros Hocc. by apply Hno, occurs_tail.
Qed.

(** The piece after a separator at the front, when there is no other
    separator: all the rest. *)
Lemma split_from_front sep rest :
  sep ≠ "" → ¬ occurs sep rest →
  (split_from sep 0 (sep +:+ rest)).2 = [rest].
Proof.
  intros Hne Hno. destruct sep as [|c sep]; [done|].
  change (String c sep +:+ rest) with (String c (sep +:+ rest)).
  cbn [split_from].
  change (String c (sep +:+ rest)) with (String c sep +:+ rest).
  rewrite prefix_append.
  replace (String.length (String c sep) - 1) with (String.length sep)
    by (simpl; lia).
  rewrite split_from_skip, split_from_none by done. done.
Qed.

Lemma substring_front a : ∀ b, substring 0 (String.length a) (a +:+ b) = a.
Proof.
  induction a as [|c a IH]; intros b; simpl; [by destruct b|]. by rewrite IH.
Qed.

Lemma drop_last_suffix name suffix :
  drop_last (String.length suffix) (name +:+ suffix) = name.
Proof.
  unfold drop_last. rewrite length_append.
  replace (String.length name + String.length suffix - String.length suffix)
    with (String.length name) by lia.
  apply substring_front.
Qed.

(** X16: a document [<name>.errors.yaml] found under the root
    [<top><rest>], the directory name [top] not occurring in [rest],
    is entered under its joined path with the namespace
    [<rest>/<name>]; for the base directory a leading slash is taken
    off, for the test directory it is not, so that a document right in
    the test directory has a namespace that starts with a slash. *)
Theorem add_file_namespace strip top rest name yaml_files :
  top ≠ "" → ¬ occurs top rest →
  add_file strip top (top +:+ rest) (name +:+ ".errors.yaml") yaml_files
  = inr (dict_set (path_join (top +:+ rest) (name +:+ ".errors.yaml"))
           (if strip && String.prefix "/" (rest +:+ "/" +:+ name)
            then drop_first (rest +:+ "/" +:+ name)
            else rest +:+ "/" +:+ name)
           yaml_files) ∧
  add_file true top top (name +:+ ".errors.yaml") yaml_files
  = inr (dict_set (path_join top (name +:+ ".errors.yaml")) name yaml_files) ∧
  add_file false top top (name +:+ ".errors.yaml") yaml_files
  = inr (dict_set (path_join top (name +:+ ".errors.yaml")) ("/" +:+ name)
           yaml_files).
Proof.
  intros Hne Hno.
  assert (Hgen : ∀ strip rest, ¬ occurs top rest →
    add_file strip top (top +:+ rest) (name +:+ ".errors.yaml") yaml_files
    = inr (dict_set (path_join (top +:+ rest) (name +:+ ".errors.yaml"))
             (if strip && String.prefix "/" (rest +:+ "/" +:+ name)
              then drop_first (rest +:+ "/" +:+ name)
              else rest +:+ "/" +:+ name)
             yaml_files)).
  { intros st r Hr. unfold add_file. destruct top as [|c top'] eqn:Htop; [done|].
    rewrite <- Htop in *. rewrite split_from_front by done.
    replace (drop_last 12 (name +:+ ".errors.yaml")) with name
      by (symmetry; apply (drop_last_suffix name ".errors.yaml")).
    done. }
  assert (Hempty : ¬ occurs top "").
  { intros [pre [post Heq]]. destruct pre; [|done]. simpl in Heq.
    destruct top; [done|discriminate]. }
  split; [by apply Hgen|]. split.
  - pose proof (Hgen true "" Hempty) as H. rewrite append_empty_r in H.
    assert (Hp : String.prefix "/" ("" +:+ "/" +:+ name) = true)
      by by destruct name.
    rewrite Hp in H. exact H.
  - pose proof (Hgen false "" Hempty) as H. rewrite append_empty_r in H.
    exact H.
Qed.

Lemma add_file_namespace_witness :
  add_file true "yaml" "yaml/xyz/openbmc_project/Error/Callout"
    "Device.errors.yaml" []
  = inr [("yaml/xyz/openbmc_project/Error/Callout/Device.errors.yaml",
          "xyz/openbmc_project/Error/Callout/Device")].
Proof.
  refine (proj1 (add_file_namespace true "yaml"
                   "/xyz/openbmc_project/Error/Callout" "Device" [] _ _)).
  - discriminate.
  - apply occurs_nowhere_sound. reflexivity.
Defined.

(** * Further properties of the metadata lookup *)

(** X17: of several metadata entries with the name of an error the
    first one in the document is used; no entry is found only when none
    has the name. *)
Theorem find_match_first name mfile :
  match find_match name mfile with
  | Some match_ =>
      ∃ pre post, mfile = pre ++ match_ :: post ∧ me_name match_ = name ∧
        Forall (λ meta_entry, me_name meta_entry ≠ name) pre
  | None => Forall (λ meta_entry, me_name meta_entry ≠ name) mfile
  end.
Proof.
  induction mfile as [|m mfile IH]; [by constructor|].
  simpl. destruct (String.eqb_spec (me_name m) name) as [Heq|Hne].
  - exists [], mfile. by repeat split.
  - destruct (find_match name mfile) as [match_|].
    + destruct IH as [pre [post [-> [Hname Hpre]]]].
      exists (m :: pre), post. repeat split; try done. by constructor.
    + by constructor.
Qed.

(** The state after one metadata field whose type resolves. *)
Lemma load_meta_field_maps fullname i cpp w :
  get_cpp_type (mf_type i) = Ret cpp →
  meta_data (model (load_meta_field fullname i w).2)
  = <[short_name (mf_str i) := field_entry i cpp]> (meta_data (model w)) ∧
  (load_meta_field fullname i w).1 = Ret (short_name (mf_str i)).
Proof.
  intros Hcpp. unfold load_meta_field, mbind, update, lift, ret. simpl.
  rewrite Hcpp.
  destruct (mf_process i) as [[|]|]; simpl;
    unfold set_metadata_process, set_meta_data_field, set_meta_data;
    simpl; by rewrite !alter_insert_eq.
Qed.

(** X18: in the field map the last writer wins: after the fields of an
    entry have loaded, the entry under a short identifier is the one
    made for the last field with that identifier. *)
Theorem load_meta_fields_last_wins fullname pre i post tmp_meta w l w' :
  load_meta_fields fullname (pre ++ i :: post) tmp_meta w = (Ret l, w') →
  Forall (λ j, short_name (mf_str j) ≠ short_name (mf_str i)) post →
  ∃ cpp, get_cpp_type (mf_type i) = Ret cpp ∧
    meta_data (model w') !! short_name (mf_str i) = Some (field_entry i cpp).
Proof.
  revert tmp_meta w. induction pre as [|j pre IH]; intros tmp_meta w Hrun Hpost.
  - simpl in Hrun. unfold mbind in Hrun.
    destruct (get_cpp_type_cases (mf_type i)) as [[_ [cpp Hcpp]]|[Hout Hbad]].
    + exists cpp. split; [done|].
      destruct (load_meta_field_maps fullname i cpp w Hcpp) as [Hmap Hret].
      destruct (load_meta_field fullname i w) as [r w1]. simpl in Hmap, Hret.
      subst r.
      assert (Hnow : meta_data (model w1) !! short_name (mf_str i)
                     = Some (field_entry i cpp))
        by (rewrite Hmap; apply lookup_insert_eq).
      clear Hmap. revert Hrun Hnow.
      generalize (tmp_meta ++ [short_name (mf_str i)]) as tmp. revert w1.
      induction post as [|k post IHpost]; intros w1 tmp Hrun Hnow.
      * simpl in Hrun. by injection Hrun as _ <-.
      * apply Forall_cons in Hpost as [Hk Hpost].
        simpl in Hrun. unfold mbind in Hrun.
        destruct (get_cpp_type_cases (mf_type k)) as [[_ [c Hc]]|[Hout Hbad]].
        -- destruct (load_meta_field_maps fullname k c w1 Hc) as [Hmap Hret].
           destruct (load_meta_field fullname k w1) as [r w2].
           simpl in Hmap, Hret. subst r.
           apply (IHpost Hpost w2 _ Hrun).
           rewrite Hmap, lookup_insert_ne by done. exact Hnow.
        -- destruct (load_meta_field_cases fullname k w1)
             as [_ [_ [_ [[Hin _]|[_ Hr]]]]]; [by destruct (Hout Hin)|].
           destruct (load_meta_field fullname k w1) as [r w2].
           simpl in Hr. subst r. discriminate.
    + destruct (load_meta_field_cases fullname i w)
        as [_ [_ [_ [[Hin _]|[_ Hr]]]]].
      * by destruct (Hout Hin).
      * destruct (load_meta_field fullname i w) as [r w1].
        simpl in Hr. subst r. discriminate.
  - simpl in Hrun. unfold mbind in Hrun.
    destruct (load_meta_field fullname j w) as [[s|e|] w1]; try discriminate.
    by apply (IH (tmp_meta ++ [s]) w1).
Qed.

Lemma load_meta_fields_last_wins_witness :
  ∃ cpp, get_cpp_type "int64" = Ret cpp ∧
    meta_data (model (load_meta_fields "xyz.Foo.Bar"
                        [MetaField "ERRNO=%d" "int32" None;
                         MetaField "ERRNO=%ld" "int64" None;
                         MetaField "FILE_NAME=%s" "string" None]
                        [] initial_world).2) !! "ERRNO"
    = Some (field_entry (MetaField "ERRNO=%ld" "int64" None) cpp).
Proof.
  apply (load_meta_fields_last_wins "xyz.Foo.Bar"
           [MetaField "ERRNO=%d" "int32" None]
           (MetaField "ERRNO=%ld" "int64" None)
           [MetaField "FILE_NAME=%s" "string" None] [] initial_world
           ["ERRNO"; "ERRNO"; "FILE_NAME"]); [reflexivity|].
  constructor; [discriminate|constructor].
Defined.
